(** * Looks-like-water: the particle simulation of [CircleCanvas.tsx]

    A shallow embedding of the React component [ParticleSimulation]
    (src/components/CircleCanvas.tsx) and the properties of its force model,
    frame loop, boundary rebuild and lifecycle.

    - TypeScript's [number] is an IEEE binary64.  The program is written once
      over the interface [Number] and used at two instances: [float], Rocq's
      primitive binary64, which is the arithmetic of the code, and [R], the
      real numbers, which is what the code computes when no operation
      rounds.  What is proved for every instance holds of the code as it
      runs; what is proved over [R] holds of the code up to rounding.
    - CANNON bodies are mutable objects shared between [world.bodies] and
      [bodiesRef.current]; they live in a store ([Heap]) and both arrays hold
      addresses into it.
    - The parts of cannon-es that the component calls ([Body.applyForce],
      [World.addBody], [World.removeBody], [World.addContactMaterial],
      the gravity and force-clearing phases of [World.step]) follow the
      library; its collision solver and integrator stay abstract.
    - The effect has the dependency list [[]]: the frame loop and the event
      handlers are those of the first render and read the React state of
      that render ([closure]), whatever the sliders set later ([state]).
    - [Math.random] is an input: the position drawn for particle [i].
    - [trace] is a ghost log of the calls of each frame, kept for reading
      runs; the order of the calls is proved on the store itself.  The
      handles of [requestAnimationFrame] are numbered.  The three.js scene,
      the colours and the cleanup of the effect are left out. *)

From Stdlib Require Import Uint63 PrimFloat.
From Stdlib Require Import ZArith Reals Lra Lia Bool String.
From stdpp Require Import base list.

Set Default Proof Using "Type".
Set Warnings "-inexact-float".

(** ** Numbers *)

Class Number (T : Type) := {
  ofZ : Z -> T;              (* an integer literal *)
  nadd : T -> T -> T;
  nsub : T -> T -> T;
  nmul : T -> T -> T;
  ndiv : T -> T -> T;
  nneg : T -> T;             (* unary minus *)
  nsqrt : T -> T;            (* Math.sqrt *)
  nlt : T -> T -> bool;      (* a < b *)
  nle : T -> T -> bool;      (* a <= b *)
  nmin : T -> T -> T;        (* Math.min *)
  truthy : T -> bool         (* ToBoolean: false on 0, -0 and NaN *)
}.

Declare Scope num_scope.
Delimit Scope num_scope with num.
Infix "+" := nadd : num_scope.
Infix "-" := nsub : num_scope.
Infix "*" := nmul : num_scope.
Infix "/" := ndiv : num_scope.
Notation "- x" := (nneg x) : num_scope.
Infix "<?" := nlt : num_scope.
Infix "<=?" := nle : num_scope.

(** A decimal literal [n / d], e.g. [0.016] is [dec 16 1000].  A correctly
    rounded division of two exactly represented integers yields the binary64
    nearest to the quotient, which is the value of the literal. *)
Definition dec {T} `{Number T} (n d : Z) : T := (ofZ n / ofZ d)%num.

(** *** binary64 *)

Definition float_ofZ (z : Z) : float :=
  match z with
  | Z0 => PrimFloat.zero
  | Zpos _ => PrimFloat.of_uint63 (Uint63.of_Z z)
  | Zneg p => PrimFloat.opp (PrimFloat.of_uint63 (Uint63.of_Z (Zpos p)))
  end.

Definition float_min (a b : float) : float :=
  if PrimFloat.is_nan a || PrimFloat.is_nan b then PrimFloat.nan
  else if PrimFloat.ltb a b then a
  else if PrimFloat.ltb b a then b
  else if PrimFloat.is_zero a && PrimFloat.get_sign a then a else b.

Definition float_truthy (a : float) : bool :=
  negb (PrimFloat.is_zero a || PrimFloat.is_nan a).

#[export] Instance float_Number : Number float := {|
  ofZ := float_ofZ;
  nadd := PrimFloat.add;
  nsub := PrimFloat.sub;
  nmul := PrimFloat.mul;
  ndiv := PrimFloat.div;
  nneg := PrimFloat.opp;
  nsqrt := PrimFloat.sqrt;
  nlt := PrimFloat.ltb;
  nle := PrimFloat.leb;
  nmin := float_min;
  truthy := float_truthy
|}.

(** *** Real arithmetic

    The same operations on the real numbers: no rounding, no NaN, no signed
    zero.  The comparisons are decided classically. *)

Definition R_lt (a b : R) : bool := if Rlt_dec a b then true else false.
Definition R_le (a b : R) : bool := if Rle_dec a b then true else false.
Definition R_truthy (a : R) : bool := if Req_dec_T a 0%R then false else true.

#[export] Instance R_Number : Number R := {|
  ofZ := IZR;
  nadd := Rplus;
  nsub := Rminus;
  nmul := Rmult;
  ndiv := Rdiv;
  nneg := Ropp;
  nsqrt := R_sqrt.sqrt;
  nlt := R_lt;
  nle := R_le;
  nmin := Rmin;
  truthy := R_truthy
|}.

(** ** The data model *)

Section Model.

Context {T : Type} `{NT : Number T}.
Local Open Scope num_scope.

(** [CANNON.Vec3] (also used for [THREE.Vector3]). *)
Record Vec3 := mkVec3 { vx : T; vy : T; vz : T }.

Definition vzero : Vec3 := mkVec3 (ofZ 0) (ofZ 0) (ofZ 0).

(** [this.vadd(v, target)]: [target.x = v.x + this.x], ... *)
Definition vadd (this v : Vec3) : Vec3 :=
  mkVec3 (vx v + vx this) (vy v + vy this) (vz v + vz this).

(** [this.cross(v, target)]. *)
Definition cross (this v : Vec3) : Vec3 :=
  mkVec3 (vy this * vz v - vz this * vy v)
         (vz this * vx v - vx this * vz v)
         (vx this * vy v - vy this * vx v).


(** [CANNON.Material]: every [new CANNON.Material(name)] takes the next id. *)
Record Material := mkMaterial {
  mat_id : nat;
  mat_name : string;
  mat_friction : T;
  mat_restitution : T
}.

(** [CANNON.ContactMaterial(m1, m2, {friction, restitution})]. *)
Record ContactMaterial := mkContactMaterial {
  cm_m1 : Material;
  cm_m2 : Material;
  cm_friction : T;
  cm_restitution : T
}.

Inductive Shape :=
| Sphere (radius : T)
| Box (halfExtents : Vec3).

Inductive BodyType := DYNAMIC | STATIC.

(** The fields of [CANNON.Body] that the component or [World.step] touch. *)
Record Body := mkBody {
  position : Vec3;
  velocity : Vec3;
  quaternion_z : T;
  force : Vec3;
  torque : Vec3;
  mass : T;
  btype : BodyType;
  material : option Material;
  shapes : list Shape;
  linearDamping : T;
  angularDamping : T
}.

(** [new CANNON.Body({mass, position, shape, material})]: at rest, no
    accumulated force, [type = mass <= 0 ? STATIC : DYNAMIC], damping 0.01. *)
Definition newBody (m : T) (pos : Vec3) (sh : list Shape)
    (mat : option Material) : Body :=
  {| position := pos; velocity := vzero; quaternion_z := ofZ 0;
     force := vzero; torque := vzero; mass := m;
     btype := if m <=? ofZ 0 then STATIC else DYNAMIC;
     material := mat; shapes := sh;
     linearDamping := dec 1 100; angularDamping := dec 1 100 |}.

(** The store of body objects; a reference is an address in it. *)
Local Abbreviation Heap := (list Body).
Local Abbreviation BodyRef := nat.

Definition alloc (b : Body) (h : Heap) : BodyRef * Heap :=
  (length h, h ++ [b]).

(** [Array.prototype.includes] on an array of references. *)
Definition includes (l : list BodyRef) (r : BodyRef) : bool :=
  bool_decide (r ∈ l).

(** The body with its force and torque accumulators replaced. *)
Definition set_force (f tq : Vec3) (b : Body) : Body :=
  mkBody (position b) (velocity b) (quaternion_z b) f tq (mass b) (btype b)
         (material b) (shapes b) (linearDamping b) (angularDamping b).

(** [body.applyForce(force, relativePoint)] of cannon-es: only a dynamic body
    accumulates, the force linearly and [relativePoint x force] as torque. *)
Definition applyForce (r : BodyRef) (f relativePoint : Vec3) (h : Heap) : Heap :=
  match h !! r with
  | Some b =>
      match btype b with
      | DYNAMIC =>
          <[r := set_force (vadd (force b) f)
                           (vadd (torque b) (cross relativePoint f)) b]> h
      | STATIC => h
      end
  | None => h
  end.

(** The React state of the component ([useState]). *)
Record Params := mkParams {
  numParticles : nat;
  particleRadius : T;
  pushRadius : T;
  attractionRadius : T;
  attractionStrength : T;
  pushStrength : T
}.

(** ** The force model: [applyForces] *)

(** Lines 280-289: the vector handed to [applyForce] for one body, [None]
    when the guard [distance < pushRadius && distance > 1] fails. *)
Definition pushForce (p : Params) (mx my : T) (body : Body) : option Vec3 :=
  let dx := vx (position body) - mx in
  let dy := vy (position body) - my in
  let distance := nsqrt (dx * dx + dy * dy) in
  if (distance <? pushRadius p) && (ofZ 1 <? distance) then
    let forceScale := (pushRadius p - distance) / pushRadius p in
    let forceX := (dx / distance) * forceScale * pushStrength p in
    let forceY := (dy / distance) * forceScale * pushStrength p in
    Some (mkVec3 forceX forceY (ofZ 0))
  else None.

Definition pushBody (p : Params) (mx my : T) (h : Heap) (r : BodyRef) : Heap :=
  match h !! r with
  | Some body =>
      match pushForce p mx my body with
      | Some f => applyForce r f (position body) h
      | None => h
      end
  | None => h
  end.

(** Lines 299-309: the vector applied to [bodyA]; [None] is [continue]. *)
Definition pairForce (p : Params) (bodyA bodyB : Body) : option Vec3 :=
  let dx := vx (position bodyB) - vx (position bodyA) in
  let dy := vy (position bodyB) - vy (position bodyA) in
  let distance := nsqrt (dx * dx + dy * dy) in
  if (distance <? particleRadius p * ofZ 2) || (attractionRadius p <? distance)
  then None
  else
    let forceMagnitude := attractionStrength p / (distance * distance) in
    let forceX := (dx / distance) * forceMagnitude in
    let forceY := (dy / distance) * forceMagnitude in
    Some (mkVec3 forceX forceY (ofZ 0)).

(** Lines 312-313: what [bodyB] receives for the vector computed for [bodyA]. *)
Definition reaction (f : Vec3) : Vec3 := mkVec3 (- vx f) (- vy f) (ofZ 0).

(** One iteration of the inner loop, for [bodyA = bodies[i]], [bodyB = bodies[j]]. *)
Definition pairStep (p : Params) (a b : BodyRef) (h : Heap) : Heap :=
  match h !! a, h !! b with
  | Some bodyA, Some bodyB =>
      match pairForce p bodyA bodyB with
      | Some f =>
          applyForce b (reaction f) (position bodyB)
            (applyForce a f (position bodyA) h)
      | None => h
      end
  | _, _ => h
  end.

(** [for (j = i + 1; j < bodies.length; j++)], over the elements after [bodies[i]]. *)
Fixpoint innerLoop (p : Params) (a : BodyRef) (rest : list BodyRef) (h : Heap) : Heap :=
  match rest with
  | [] => h
  | b :: rest' => innerLoop p a rest' (pairStep p a b h)
  end.

(** [for (i = 0; i < bodies.length; i++)]. *)
Fixpoint outerLoop (p : Params) (bodies : list BodyRef) (h : Heap) : Heap :=
  match bodies with
  | [] => h
  | a :: rest => outerLoop p rest (innerLoop p a rest h)
  end.

(** [applyForces] on the array [bodiesRef.current] and the pointer position. *)
Definition applyForces (p : Params) (mx my : T) (bodies : list BodyRef) (h : Heap) : Heap :=
  outerLoop p bodies (foldl (pushBody p mx my) h bodies).

(** ** The world of cannon-es *)

Inductive Broadphase := NaiveBroadphase | SAPBroadphase.

Record World := mkWorld {
  gravity : Vec3;
  broadphase : Broadphase;
  bodies : list BodyRef;
  contactmaterials : list ContactMaterial;
  defaultMaterial : Material
}.

(** [new CANNON.World()]: no gravity, no body, no contact material.  The
    constructor makes the default material, [new Material('default')] with
    friction and restitution -1, which takes the next material id [id]. *)
Definition newWorld (id : nat) : World :=
  mkWorld vzero NaiveBroadphase [] []
          (mkMaterial id "default" (- ofZ 1) (- ofZ 1)).

Definition set_bodies (l : list BodyRef) (w : World) : World :=
  mkWorld (gravity w) (broadphase w) l (contactmaterials w) (defaultMaterial w).

(** [world.addBody(body)]: a body already in the world is not added again. *)
Definition addBody (r : BodyRef) (w : World) : World :=
  if includes (bodies w) r then w else set_bodies (bodies w ++ [r]) w.

(** [bodies.splice(bodies.indexOf(body), 1)] when [indexOf] finds it. *)
Fixpoint spliceOut (r : BodyRef) (l : list BodyRef) : list BodyRef :=
  match l with
  | [] => []
  | x :: l' => if Nat.eqb x r then l' else x :: spliceOut r l'
  end.

(** [world.removeBody(body)]. *)
Definition removeBody (r : BodyRef) (w : World) : World :=
  set_bodies (spliceOut r (bodies w)) w.

(** [world.addContactMaterial(cmat)]: always pushed. *)
Definition addContactMaterial (cm : ContactMaterial) (w : World) : World :=
  mkWorld (gravity w) (broadphase w) (bodies w) (contactmaterials w ++ [cm])
          (defaultMaterial w).

(** First phase of [World.step]: [f += m * gravity] on every dynamic body. *)
Definition addGravityTo (g : Vec3) (b : Body) : Body :=
  match btype b with
  | DYNAMIC =>
      set_force (mkVec3 (vx (force b) + mass b * vx g)
                        (vy (force b) + mass b * vy g)
                        (vz (force b) + mass b * vz g)) (torque b) b
  | STATIC => b
  end.

Definition addGravity (w : World) (h : Heap) : Heap :=
  foldl (fun h r => alter (addGravityTo (gravity w)) r h) h (bodies w).

(** Last phase of [World.step]: [world.clearForces()]. *)
Definition clearForces (w : World) (h : Heap) : Heap :=
  foldl (fun h r => alter (set_force vzero vzero) r h) h (bodies w).

Definition derefAll (h : Heap) (rs : list BodyRef) : list Body :=
  omap (fun r => h !! r) rs.

(** What the solver and integrator of [World.step] write to a body. *)
Record Motion := mkMotion {
  new_position : Vec3;
  new_velocity : Vec3;
  new_quaternion_z : T
}.

Definition set_motion (m : Motion) (b : Body) : Body :=
  mkBody (new_position m) (new_velocity m) (new_quaternion_z m) (force b)
         (torque b) (mass b) (btype b) (material b) (shapes b)
         (linearDamping b) (angularDamping b).

Definition writeBack (rs : list BodyRef) (ms : list Motion) (h : Heap) : Heap :=
  foldl (fun h rm => alter (set_motion (snd rm)) (fst rm) h) h (zip rs ms).

(** ** The component *)

(** [THREE.Mesh], by what [updateParticlePositions] writes. *)
Record Mesh := mkMesh { mesh_position : Vec3; mesh_rotation_z : T }.

(** [THREE.OrthographicCamera], by its frustum planes. *)
Record Camera := mkCamera {
  cam_left : T; cam_right : T; cam_top : T; cam_bottom : T
}.

(** What one frame does, in call order.  [EvStep] carries the force
    accumulators of the particles as [world.step] finds them, [EvApplyForces]
    those that [applyForces] leaves. *)
Inductive Event :=
| EvRequestFrame
| EvStep (dt : T) (consumed : list Vec3)
| EvApplyForces (pending : list Vec3)
| EvUpdatePositions
| EvRender.

Record Sim := mkSim {
  state : Params;               (* the React state of the latest render *)
  closure : Params;             (* the state the first render's functions closed over *)
  heap : Heap;
  worldRef : option World;
  sceneRef : option nat;        (* the scene, by its number of children *)
  bodiesRef : list BodyRef;
  particlesRef : list Mesh;
  cameraRef : option Camera;
  rendererRef : option (T * T); (* the renderer, by its size *)
  mousePositionRef : T * T;
  prevTimeRef : T;
  requestRef : option nat;
  nextMaterialId : nat;         (* Material.idCounter *)
  trace : list Event
}.

Definition set_state (p : Params) (s : Sim) : Sim :=
  mkSim p (closure s) (heap s) (worldRef s) (sceneRef s) (bodiesRef s)
        (particlesRef s) (cameraRef s) (rendererRef s) (mousePositionRef s)
        (prevTimeRef s) (requestRef s) (nextMaterialId s) (trace s).

Definition set_physics (h : Heap) (w : World) (s : Sim) : Sim :=
  mkSim (state s) (closure s) h (Some w) (sceneRef s) (bodiesRef s)
        (particlesRef s) (cameraRef s) (rendererRef s) (mousePositionRef s)
        (prevTimeRef s) (requestRef s) (nextMaterialId s) (trace s).

Definition set_view (c : Camera) (size : T * T) (s : Sim) : Sim :=
  mkSim (state s) (closure s) (heap s) (worldRef s) (sceneRef s) (bodiesRef s)
        (particlesRef s) (Some c) (Some size) (mousePositionRef s)
        (prevTimeRef s) (requestRef s) (nextMaterialId s) (trace s).

Definition set_mouse (m : T * T) (s : Sim) : Sim :=
  mkSim (state s) (closure s) (heap s) (worldRef s) (sceneRef s) (bodiesRef s)
        (particlesRef s) (cameraRef s) (rendererRef s) m
        (prevTimeRef s) (requestRef s) (nextMaterialId s) (trace s).

Definition set_prevTime (t : T) (s : Sim) : Sim :=
  mkSim (state s) (closure s) (heap s) (worldRef s) (sceneRef s) (bodiesRef s)
        (particlesRef s) (cameraRef s) (rendererRef s) (mousePositionRef s)
        t (requestRef s) (nextMaterialId s) (trace s).

Definition set_particles (ms : list Mesh) (s : Sim) : Sim :=
  mkSim (state s) (closure s) (heap s) (worldRef s) (sceneRef s) (bodiesRef s)
        ms (cameraRef s) (rendererRef s) (mousePositionRef s)
        (prevTimeRef s) (requestRef s) (nextMaterialId s) (trace s).

Definition set_materialId (n : nat) (s : Sim) : Sim :=
  mkSim (state s) (closure s) (heap s) (worldRef s) (sceneRef s) (bodiesRef s)
        (particlesRef s) (cameraRef s) (rendererRef s) (mousePositionRef s)
        (prevTimeRef s) (requestRef s) n (trace s).

(** [requestRef.current = requestAnimationFrame(animate)]. *)
Definition requestFrame (s : Sim) : Sim :=
  mkSim (state s) (closure s) (heap s) (worldRef s) (sceneRef s) (bodiesRef s)
        (particlesRef s) (cameraRef s) (rendererRef s) (mousePositionRef s)
        (prevTimeRef s)
        (Some (match requestRef s with Some n => S n | None => 1%nat end))
        (nextMaterialId s) (trace s ++ [EvRequestFrame]).

Definition emit (e : Event) (s : Sim) : Sim :=
  mkSim (state s) (closure s) (heap s) (worldRef s) (sceneRef s) (bodiesRef s)
        (particlesRef s) (cameraRef s) (rendererRef s) (mousePositionRef s)
        (prevTimeRef s) (requestRef s) (nextMaterialId s) (trace s ++ [e]).

(** The state of the first render, before the effect has run, of a component
    whose [useState] defaults are [p]: every ref holds its initial value, and
    no [CANNON.Material] has been made yet ([Material.idCounter] is 0). *)
Definition fresh (p : Params) : Sim :=
  mkSim p p [] None None [] [] None None (ofZ 0, ofZ 0) (ofZ 0) None 0 [].

(** The defaults of lines 19-24. *)
Definition defaults : Params :=
  mkParams 1000 (ofZ 7) (ofZ 80) (ofZ 150) (ofZ 25000) (ofZ 30000).

(** The force accumulators of the particles, in the order of [bodiesRef]. *)
Definition particleForces (s : Sim) : list Vec3 :=
  force <$> derefAll (heap s) (bodiesRef s).

(** *** [createParticles] (lines 146-216) *)

(** The physics body of a particle (lines 200-209). *)
Definition particleBody (p : Params) (particleMaterial : Material) (x y : T) : Body :=
  let shape := Sphere (particleRadius p) in
  let body := newBody (ofZ 1) (mkVec3 x y (ofZ 0)) [shape] (Some particleMaterial) in
  mkBody (position body) (velocity body) (quaternion_z body)
         (force body) (torque body) (mass body) (btype body)
         (material body) (shapes body) (dec 3 10) (dec 5 10).

(** The body of the loop for particle [i].  [xy] is the position drawn for it
    ([Math.random] for the angle and the distance); the colour is cosmetic. *)
Definition createParticle (p : Params) (particleMaterial : Material) (xy : T * T)
    (acc : Heap * World * nat * list Mesh * list BodyRef)
    : Heap * World * nat * list Mesh * list BodyRef :=
  let '(h, world, scene, particles, bodies) := acc in
  let mesh := mkMesh (mkVec3 (fst xy) (snd xy) (ofZ 0)) (ofZ 0) in
  let '(r, h') := alloc (particleBody p particleMaterial (fst xy) (snd xy)) h in
  (h', addBody r world, S scene, particles ++ [mesh], bodies ++ [r]).

Definition createParticles (initPos : nat -> T * T) (s : Sim) : Sim :=
  match sceneRef s, worldRef s with
  | Some scene, Some world =>
      let p := closure s in
      let particleMaterial :=
        mkMaterial (nextMaterialId s) "particleMaterial" (dec 5 100) (dec 3 10) in
      let contactMaterial :=
        mkContactMaterial particleMaterial particleMaterial (dec 1 100) (dec 3 10) in
      let world1 := addContactMaterial contactMaterial world in
      let '(h, world2, scene', particles, bodies) :=
        foldl (fun acc i => createParticle p particleMaterial (initPos i) acc)
              (heap s, world1, scene, [], []) (seq 0 (numParticles p)) in
      mkSim (state s) (closure s) h (Some world2) (Some scene') bodies particles
            (cameraRef s) (rendererRef s) (mousePositionRef s) (prevTimeRef s)
            (requestRef s) (S (nextMaterialId s)) (trace s)
  | _, _ => s
  end.

(** *** [createBoundaries] (lines 218-260) *)

Definition boundaryThickness : T := ofZ 50.

(** The body that [createWall(x, y, width, height)] builds. *)
Definition wallBody (boundaryMaterial : Material) (x y width height : T) : Body :=
  let shape := Box (mkVec3 (width / ofZ 2) (height / ofZ 2) (boundaryThickness / ofZ 2)) in
  newBody (ofZ 0) (mkVec3 x y (ofZ 0)) [shape] (Some boundaryMaterial).

(** [createWall(x, y, width, height)]. *)
Definition createWall (boundaryMaterial : Material) (x y width height : T)
    (hw : Heap * World) : Heap * World :=
  let '(r, h') := alloc (wallBody boundaryMaterial x y width height) (fst hw) in
  (h', addBody r (snd hw)).

Definition createBoundaries (boxWidth boxHeight : T) (s : Sim) : Sim :=
  match worldRef s with
  | None => s
  | Some world =>
      let halfWidth := boxWidth / ofZ 2 in
      let halfHeight := boxHeight / ofZ 2 in
      let boundaryMaterial :=
        mkMaterial (nextMaterialId s) "boundaryMaterial" (ofZ 0) (dec 5 10) in
      let world1 :=
        match bodiesRef s with
        | [] => world
        | r0 :: _ =>
            (* every particle is created with a material *)
            match h0 ← heap s !! r0; material h0 with
            | Some particleMaterial =>
                addContactMaterial
                  (mkContactMaterial particleMaterial boundaryMaterial (ofZ 0) (dec 5 10))
                  world
            | None => world
            end
        end in
      let hw0 := (heap s, world1) in
      let hw1 := createWall boundaryMaterial (ofZ 0)
                   (halfHeight + boundaryThickness / ofZ 2) boxWidth boundaryThickness hw0 in
      let hw2 := createWall boundaryMaterial (ofZ 0)
                   (- halfHeight - boundaryThickness / ofZ 2) boxWidth boundaryThickness hw1 in
      let hw3 := createWall boundaryMaterial
                   (- halfWidth - boundaryThickness / ofZ 2) (ofZ 0) boundaryThickness boxHeight hw2 in
      let hw4 := createWall boundaryMaterial
                   (halfWidth + boundaryThickness / ofZ 2) (ofZ 0) boundaryThickness boxHeight hw3 in
      set_materialId (S (nextMaterialId s)) (set_physics (fst hw4) (snd hw4) s)
  end.

(** *** [handleResize] (lines 110-144) *)

(** [for (i = bodies.length - 1; i >= 0; i--)] on the live array [world.bodies];
    [n] is [i + 1].  A removal takes out an element at an index [<= i], so
    [bodies[i - 1]] is still there at the next iteration. *)
Fixpoint removeLoop (particleBodies : list BodyRef) (n : nat) (w : World) : World :=
  match n with
  | O => w
  | S i =>
      match bodies w !! i with
      | Some body =>
          removeLoop particleBodies i
            (if includes particleBodies body then w else removeBody body w)
      | None => removeLoop particleBodies i w
      end
  end.

Definition frustumSize : T := ofZ 1000.

Definition cameraFor (boxWidth boxHeight : T) : Camera :=
  let aspectRatio := boxWidth / boxHeight in
  mkCamera ((frustumSize * aspectRatio) / - ofZ 2)
           ((frustumSize * aspectRatio) / ofZ 2)
           (frustumSize / ofZ 2)
           (frustumSize / - ofZ 2).

Definition handleResize (boxWidth boxHeight : T) (s : Sim) : Sim :=
  match cameraRef s, rendererRef s with
  | Some _, Some _ =>
      let s1 := set_view (cameraFor boxWidth boxHeight) (boxWidth, boxHeight) s in
      match worldRef s1 with
      | Some world =>
          let world' := removeLoop (bodiesRef s1) (length (bodies world)) world in
          createBoundaries boxWidth boxHeight (set_physics (heap s1) world' s1)
      | None => s1
      end
  | _, _ => s
  end.

(** *** [handleMouseMove] (lines 262-271), for a canvas that is in the page *)
Definition handleMouseMove (clientX clientY rectLeft rectTop innerWidth innerHeight : T)
    (s : Sim) : Sim :=
  let x := clientX - rectLeft - innerWidth / ofZ 2 in
  let y := - (clientY - rectTop) + innerHeight / ofZ 2 in
  set_mouse (x, y) s.

(** *** [updateParticlePositions] (lines 318-331) *)
Definition updateParticlePositions (s : Sim) : Sim :=
  set_particles
    (imap (fun i mesh =>
             match r ← bodiesRef s !! i; heap s !! r with
             | Some body =>
                 mkMesh (mkVec3 (vx (position body)) (vy (position body)) (ofZ 0))
                        (quaternion_z body)
             | None => mesh
             end) (particlesRef s)) s.

(** *** The sliders *)
Definition handleAttractionRadiusChange (v : T) (s : Sim) : Sim :=
  let p := state s in
  set_state (mkParams (numParticles p) (particleRadius p) (pushRadius p) v
                      (attractionStrength p) (pushStrength p)) s.

Definition handleAttractionStrengthChange (v : T) (s : Sim) : Sim :=
  let p := state s in
  set_state (mkParams (numParticles p) (particleRadius p) (pushRadius p)
                      (attractionRadius p) v (pushStrength p)) s.

(** The other setters of lines 19-24 ([setNumParticles], [setParticleRadius],
    [setPushRadius], [setPushStrength]) are never called: the component has no
    input that changes these four parameters. *)

(** *** The effect (lines 29-107), run once after the first render, when the
    canvas element is in the page *)
Definition mount (boxWidth boxHeight : T) (initPos : nat -> T * T) (s : Sim) : Sim :=
  (* new CANNON.World(); world.gravity.set(0, -1000, 0); world.broadphase = ... *)
  let world0 := newWorld (nextMaterialId s) in
  let world := mkWorld (mkVec3 (ofZ 0) (- ofZ 1000) (ofZ 0)) SAPBroadphase
                       (bodies world0) (contactmaterials world0)
                       (defaultMaterial world0) in
  let s1 := mkSim (state s) (state s) (heap s) (Some world) (Some 0%nat)
                  (bodiesRef s) (particlesRef s)
                  (Some (cameraFor boxWidth boxHeight)) (Some (boxWidth, boxHeight))
                  (mousePositionRef s) (prevTimeRef s) (requestRef s)
                  (S (nextMaterialId s)) (trace s) in
  requestFrame (createBoundaries boxWidth boxHeight (createParticles initPos s1)).

(** What the browser delivers to the mounted component. *)
Inductive Input :=
| Frame (time : T)
| Resize (innerWidth innerHeight : T)
| MouseMove (clientX clientY rectLeft rectTop innerWidth innerHeight : T)
| AttractionRadiusChange (v : T)
| AttractionStrengthChange (v : T).

(** Line 86. *)
Definition deltaTime (prevTime time : T) : T :=
  if truthy prevTime then nmin ((time - prevTime) / ofZ 1000) (dec 1 10)
  else dec 16 1000.

Section Loop.

(** The collision detection, constraint solver and integrator of
    [World.internalStep]: from the bodies of the world, gravity already added
    to their forces, to the motion of each. *)
Variable solve : T -> World -> list Body -> list Motion.

(** [world.step(dt)] with one argument: one fixed step. *)
Definition worldStep (dt : T) (w : World) (h : Heap) : Heap :=
  let h1 := addGravity w h in
  let h2 := writeBack (bodies w) (solve dt w (derefAll h1 (bodies w))) h1 in
  clearForces w h2.

(** *** [animate] (lines 83-95); it runs the functions of the first render *)
Definition animate (time : T) (s : Sim) : Sim :=
  match worldRef s with
  | None => s
  | Some world =>
      let s1 := requestFrame s in
      let dt := deltaTime (prevTimeRef s1) time in
      let s2 := set_prevTime time s1 in
      (* world.step(deltaTime) *)
      let s3 := emit (EvStep dt (particleForces s2))
                     (set_physics (worldStep dt world (heap s2)) world s2) in
      (* applyForces() *)
      let h4 := applyForces (closure s3) (fst (mousePositionRef s3))
                  (snd (mousePositionRef s3)) (bodiesRef s3) (heap s3) in
      let s4 := set_physics h4 world s3 in
      let s4' := emit (EvApplyForces (particleForces s4)) s4 in
      (* updateParticlePositions() *)
      let s5 := emit EvUpdatePositions (updateParticlePositions s4') in
      (* renderer.render(scene, camera) *)
      emit EvRender s5
  end.

Definition handle (i : Input) (s : Sim) : Sim :=
  match i with
  | Frame time => animate time s
  | Resize w h => handleResize w h s
  | MouseMove cx cy l t w h => handleMouseMove cx cy l t w h s
  | AttractionRadiusChange v => handleAttractionRadiusChange v s
  | AttractionStrengthChange v => handleAttractionStrengthChange v s
  end.

Definition run (inputs : list Input) (s : Sim) : Sim :=
  foldl (fun s i => handle i s) s inputs.

End Loop.

End Model.

Arguments Vec3 : clear implicits.
Arguments Material : clear implicits.
Arguments ContactMaterial : clear implicits.
Arguments Shape : clear implicits.
Arguments Body : clear implicits.
Arguments Params : clear implicits.
Arguments World : clear implicits.
Arguments Mesh : clear implicits.
Arguments Motion : clear implicits.
Arguments Camera : clear implicits.
Arguments Event : clear implicits.
Arguments Sim : clear implicits.
Arguments Input : clear implicits.

Abbreviation Heap T := (list (Body T)).
Abbreviation BodyRef := nat.

(** ** Vocabulary of the properties *)

Section Vocabulary.

Context {T : Type} `{NT : Number T}.

(** The distance in the plane, as both loops of [applyForces] compute it. *)
Definition dist (a b : Vec3 T) : T :=
  nsqrt ((vx b - vx a) * (vx b - vx a) + (vy b - vy a) * (vy b - vy a))%num.

(** The pairs [(bodies[i], bodies[j])] with [i < j], in the order of the loops. *)
Fixpoint pairsOf (l : list nat) : list (nat * nat) :=
  match l with
  | [] => []
  | a :: rest => ((fun b => (a, b)) <$> rest) ++ pairsOf rest
  end.

(** The fields of a body that nothing changes once it is created. *)
Definition identity (b : Body T) :=
  (mass b, btype b, material b, shapes b, linearDamping b, angularDamping b).

(** Same addresses, and every body keeps its identity. *)
Definition stable (h h' : Heap T) : Prop :=
  length h' = length h /\
  forall r b, h !! r = Some b ->
    exists b', h' !! r = Some b' /\ identity b' = identity b.

(** As [stable], and no body has moved. *)
Definition still (h h' : Heap T) : Prop :=
  length h' = length h /\
  forall r b, h !! r = Some b ->
    exists b', h' !! r = Some b' /\ identity b' = identity b
               /\ position b' = position b /\ quaternion_z b' = quaternion_z b.

(** The material that [createParticles] makes in a fresh component: it has
    id 1, id 0 being that of the default material of the world. *)
Definition particleMaterial1 : Material T :=
  mkMaterial 1 "particleMaterial" (dec 5 100) (dec 3 10).

(** The material of the [n]-th call of [new CANNON.Material]. *)
Definition boundaryMaterialAt (n : nat) : Material T :=
  mkMaterial n "boundaryMaterial" (ofZ 0) (dec 5 10).

(** The four walls of [createBoundaries], in creation order. *)
Definition boundaryWalls (m : Material T) (boxWidth boxHeight : T) : list (Body T) :=
  let halfWidth := (boxWidth / ofZ 2)%num in
  let halfHeight := (boxHeight / ofZ 2)%num in
  [ wallBody m (ofZ 0) (halfHeight + boundaryThickness / ofZ 2)%num
             boxWidth boundaryThickness;
    wallBody m (ofZ 0) (- halfHeight - boundaryThickness / ofZ 2)%num
             boxWidth boundaryThickness;
    wallBody m (- halfWidth - boundaryThickness / ofZ 2)%num (ofZ 0)
             boundaryThickness boxHeight;
    wallBody m (halfWidth + boundaryThickness / ofZ 2)%num (ofZ 0)
             boundaryThickness boxHeight ].

(** The contact materials that one call of [createBoundaries] registers. *)
Definition registered (s : Sim T) : list (ContactMaterial T) :=
  match bodiesRef s with
  | [] => []
  | r0 :: _ =>
      match h0 ← heap s !! r0; material h0 with
      | Some particleMaterial =>
          [mkContactMaterial particleMaterial (boundaryMaterialAt (nextMaterialId s))
                             (ofZ 0) (dec 5 10)]
      | None => []
      end
  end.

(** What holds of the component once mounted, whatever it has handled. *)
Record wf (p : Params T) (s : Sim T) : Prop := mkWf {
  wf_closure : closure s = p;
  wf_world : exists w,
    worldRef s = Some w
    /\ gravity w = mkVec3 (ofZ 0) (- ofZ 1000)%num (ofZ 0)
    /\ NoDup (bodies w)
    /\ Forall (fun r => r < length (heap s)) (bodies w)
    /\ Forall (fun r => r ∈ bodies w) (bodiesRef s);
  wf_view : is_Some (cameraRef s) /\ is_Some (rendererRef s);
  wf_particles :
    Forall (fun r => exists b, heap s !! r = Some b
                       /\ identity b = identity (particleBody p particleMaterial1 (ofZ 0) (ofZ 0)))
           (bodiesRef s);
  wf_bodies : length (bodiesRef s) = numParticles p;
  wf_meshes : length (particlesRef s) = numParticles p
}.

Definition isParticleBoundary (cm : ContactMaterial T) : bool :=
  String.eqb (mat_name (cm_m1 cm)) "particleMaterial"
  && String.eqb (mat_name (cm_m2 cm)) "boundaryMaterial".


(** A particle-boundary rule has the friction and restitution of lines 237-238. *)
Definition boundaryRule (cm : ContactMaterial T) : Prop :=
  isParticleBoundary cm = true ->
  cm_friction cm = ofZ 0 /\ cm_restitution cm = dec 5 10.

(** The bodies of the world that are not particles. *)
Definition boundaries (s : Sim T) : list (Body T) :=
  match worldRef s with
  | Some w => derefAll (heap s) (filter (fun r => r ∉ bodiesRef s) (bodies w))
  | None => []
  end.

(** The pointer as a point of the plane of the particles. *)
Definition pointer (mx my : T) : Vec3 T := mkVec3 mx my (ofZ 0).

(** What the loop of lines 279-290 does to one body: a dynamic body within
    reach of the pointer accumulates the push. *)
Definition pushed (p : Params T) (mx my : T) (body : Body T) : Body T :=
  match pushForce p mx my body, btype body with
  | Some f, DYNAMIC =>
      set_force (vadd (force body) f) (vadd (torque body) (cross (position body) f)) body
  | _, _ => body
  end.

Definition isFrame (i : Input T) : bool :=
  match i with Frame _ => true | _ => false end.

(** The number of registered particle-boundary contact materials. *)
Definition particleBoundaryRules (w : World T) : nat :=
  length (List.filter isParticleBoundary (contactmaterials w)).

Definition isResize (i : Input T) : bool :=
  match i with Resize _ _ => true | _ => false end.

Definition resizes (inputs : list (Input T)) : nat :=
  length (List.filter isResize inputs).

End Vocabulary.

(** *** In real arithmetic *)

Section RealVocabulary.

Local Open Scope R_scope.

Definition norm (v : Vec3 R) : R :=
  sqrt (vx v * vx v + vy v * vy v + vz v * vz v).

(** The unit vector of the plane that points from [a] to [b]. *)
Definition unitTo (a b : Vec3 R) : Vec3 R :=
  mkVec3 ((vx b - vx a) / dist a b) ((vy b - vy a) / dist a b) 0.

Definition vscale (k : R) (v : Vec3 R) : Vec3 R :=
  mkVec3 (k * vx v) (k * vy v) (k * vz v).

(** A wall as a rectangle: centre, width and height, from its box shape. *)
Definition rectangle (b : Body R) : option (R * R * R * R) :=
  match shapes b with
  | [Box halfExtents] =>
      Some (vx (position b), vy (position b), 2 * vx halfExtents, 2 * vy halfExtents)
  | _ => None
  end.

(** The enclosure of a [width] x [height] viewport: top, bottom, left, right. *)
Definition enclosure (width height : R) : list (R * R * R * R) :=
  let thickness := 50 in
  [ (0, height / 2 + thickness / 2, width, thickness);
    (0, - (height / 2 + thickness / 2), width, thickness);
    (- (width / 2) - thickness / 2, 0, thickness, height);
    (width / 2 + thickness / 2, 0, thickness, height) ].

End RealVocabulary.

(** *** Concrete inputs in real arithmetic *)

Section RealScenarios.

Local Open Scope R_scope.

(** A particle of the default component on the horizontal axis. *)
Definition realParticle (x : R) : Body R :=
  mkBody (mkVec3 x 0 0) vzero 0 vzero vzero 1 DYNAMIC (Some particleMaterial1)
         [Sphere 7] 0.3 0.5.

End RealScenarios.

(** *** Concrete runs in binary64 *)

Section Scenarios.

Local Open Scope float_scope.

(** A solver that moves nothing. *)
Definition restSolver (dt : float) (w : World float) (bs : list (Body float))
    : list (Motion float) := [].

(** A solver that keeps every body in place and writes to its velocity the
    force that the body carries when the solver is handed it. *)
Definition spySolver (dt : float) (w : World float) (bs : list (Body float))
    : list (Motion float) :=
  (fun b => mkMotion (position b) (force b) (quaternion_z b)) <$> bs.

(** Two particles, at the origin and at [x] on the horizontal axis. *)
Definition twoAt (x : float) (i : nat) : float * float :=
  match i with O => (0, 0) | _ => (x, 0) end.

Definition twoParticles : Params float := mkParams 2 7 80 150 25000 30000.

(** Two particles 100 apart in an 800 x 600 viewport, the pointer far away. *)
Definition scenario1 : Sim float :=
  handleMouseMove 0 0 0 0 800 600 (mount 800 600 (twoAt 100) (fresh twoParticles)).

(** A particle of [twoParticles] on the horizontal axis. *)
Definition particleAt (x : float) : Body float :=
  particleBody twoParticles particleMaterial1 x 0.

(** Two particles exactly two radii apart. *)
Definition touching : Sim float :=
  handleMouseMove 0 0 0 0 800 600 (mount 800 600 (twoAt 14) (fresh twoParticles)).

End Scenarios.

(** *** Vocabulary of the further properties *)

Section MoreVocabulary.

Context {T : Type} `{NT : Number T}.

(** The body without what it has accumulated. *)
Definition unforced (b : Body T) : Body T := set_force vzero vzero b.

Definition isSlider (i : Input T) : bool :=
  match i with
  | AttractionRadiusChange _ | AttractionStrengthChange _ => true
  | _ => false
  end.

(** The mesh that [updateParticlePositions] makes of a body. *)
Definition meshOf (body : Body T) : Mesh T :=
  mkMesh (mkVec3 (vx (position body)) (vy (position body)) (ofZ 0)) (quaternion_z body).

(** The size of the window after the inputs: that of the last resize. *)
Definition viewport (size : T * T) (inputs : list (Input T)) : T * T :=
  foldl (fun v i => match i with Resize w h => (w, h) | _ => v end) size inputs.

(** The particles come first in the world, then four walls made for the
    window [size]; camera and renderer are set for that size. *)
Definition walled (n : nat) (size : T * T) (s : Sim T) : Prop :=
  exists w k id,
    worldRef s = Some w
    /\ rendererRef s = Some size
    /\ cameraRef s = Some (cameraFor (fst size) (snd size))
    /\ bodiesRef s = seq 0 n
    /\ bodies w = seq 0 n ++ seq k 4
    /\ n <= k
    /\ identity <$> derefAll (heap s) (seq k 4)
       = identity <$> boundaryWalls (boundaryMaterialAt id) (fst size) (snd size).

(** The rule between the particles (lines 170-173). *)
Definition particleRule : ContactMaterial T :=
  mkContactMaterial particleMaterial1 particleMaterial1 (dec 1 100) (dec 3 10).

(** The rule that a boundary build registers when its material takes [id]. *)
Definition boundaryRuleAt (id : nat) : ContactMaterial T :=
  mkContactMaterial particleMaterial1 (boundaryMaterialAt id) (ofZ 0) (dec 5 10).

End MoreVocabulary.

Section MoreRealVocabulary.

Local Open Scope R_scope.

(** The sum of a quantity of the bodies at the addresses [rs]. *)
Definition sumOver (g : Body R -> R) (h : Heap R) (rs : list nat) : R :=
  foldr (fun r acc => from_option g 0 (h !! r) + acc) 0 rs.

Definition forceX (b : Body R) : R := vx (force b).
Definition forceY (b : Body R) : R := vy (force b).

(** Every address holds a dynamic body. *)
Definition allDynamic (h : Heap R) (rs : list nat) : Prop :=
  Forall (fun r => exists b, h !! r = Some b /\ btype b = DYNAMIC) rs.

(** The point [(x, y)] lies in the box of a wall. *)
Definition inWall (b : Body R) (x y : R) : Prop :=
  match shapes b with
  | [Box halfExtents] =>
      vx (position b) - vx halfExtents <= x <= vx (position b) + vx halfExtents
      /\ vy (position b) - vy halfExtents <= y <= vy (position b) + vy halfExtents
  | _ => False
  end.

End MoreRealVocabulary.

(** * Properties *)

(** ** The store *)

Section StoreLemmas.

Context {T : Type} `{NT : Number T}.
Implicit Types h : Heap T.

Lemma applyForce_lookup_ne r r' f rp (h : Heap T) :
  r <> r' -> applyForce r f rp h !! r' = h !! r'.
Proof.
  intros Hne. unfold applyForce. destruct (h !! r) as [b|]; [|done].
  destruct (btype b); [|done]. by rewrite list_lookup_insert_ne.
Qed.


(** What [bodyB] receives is the negation of what [bodyA] receives, in every
    arithmetic. *)
Lemma reaction_negates (f : Vec3 T) :
  vx (reaction f) = (- vx f)%num /\ vy (reaction f) = (- vy f)%num.
Proof. done. Qed.

Lemma still_stable h h' : still h h' -> stable h h'.
Proof.
  intros [Hl H]. split; [done|]. intros r b Hb.
  destruct (H r b Hb) as (b' & ? & ? & _). eauto.
Qed.

Lemma still_refl h : still h h.
Proof. split; [done|]. intros r b Hb. eauto. Qed.

Lemma still_trans h1 h2 h3 : still h1 h2 -> still h2 h3 -> still h1 h3.
Proof.
  intros [L1 H1] [L2 H2]. split; [congruence|]. intros r b Hb.
  destruct (H1 r b Hb) as (b2 & Hb2 & I2 & P2 & Q2).
  destruct (H2 r b2 Hb2) as (b3 & Hb3 & I3 & P3 & Q3).
  exists b3. repeat split; congruence.
Qed.

Lemma stable_refl h : stable h h.
Proof. apply still_stable, still_refl. Qed.

Lemma stable_trans h1 h2 h3 : stable h1 h2 -> stable h2 h3 -> stable h1 h3.
Proof.
  intros [L1 H1] [L2 H2]. split; [congruence|]. intros r b Hb.
  destruct (H1 r b Hb) as (b2 & Hb2 & I2).
  destruct (H2 r b2 Hb2) as (b3 & Hb3 & I3).
  exists b3. split; congruence.
Qed.

Lemma still_alter (f : Body T -> Body T) r h :
  (forall b, identity (f b) = identity b /\ position (f b) = position b
             /\ quaternion_z (f b) = quaternion_z b) ->
  still h (alter f r h).
Proof.
  intros Hf. split; [apply length_alter|]. intros r' b Hb.
  destruct (decide (r = r')) as [->|Hne].
  - exists (f b). rewrite list_lookup_alter_eq, Hb. split; [done|]. apply Hf.
  - exists b. by rewrite list_lookup_alter_ne.
Qed.

Lemma stable_alter (f : Body T -> Body T) r h :
  (forall b, identity (f b) = identity b) -> stable h (alter f r h).
Proof.
  intros Hf. split; [apply length_alter|]. intros r' b Hb.
  destruct (decide (r = r')) as [->|Hne].
  - exists (f b). rewrite list_lookup_alter_eq, Hb. split; [done|]. apply Hf.
  - exists b. by rewrite list_lookup_alter_ne.
Qed.

Lemma still_foldl {A} (f : Heap T -> A -> Heap T) (l : list A) h :
  (forall h x, still h (f h x)) -> still h (foldl f h l).
Proof.
  intros Hf. revert h. induction l as [|x l IH]; intros h; simpl.
  - apply still_refl.
  - eapply still_trans; [apply Hf | apply IH].
Qed.

Lemma stable_foldl {A} (f : Heap T -> A -> Heap T) (l : list A) h :
  (forall h x, stable h (f h x)) -> stable h (foldl f h l).
Proof.
  intros Hf. revert h. induction l as [|x l IH]; intros h; simpl.
  - apply stable_refl.
  - eapply stable_trans; [apply Hf | apply IH].
Qed.

Lemma applyForce_alter r f rp h :
  applyForce r f rp h =
  alter (fun b => match btype b with
                  | DYNAMIC => set_force (vadd (force b) f) (vadd (torque b) (cross rp f)) b
                  | STATIC => b end) r h.
Proof.
  unfold applyForce. destruct (h !! r) as [b|] eqn:Hb.
  - destruct (btype b) eqn:Hd.
    + apply list_eq. intros i. destruct (decide (r = i)) as [->|Hne].
      * rewrite list_lookup_alter_eq, Hb. simpl. rewrite Hd.
        apply list_lookup_insert_eq. by eapply lookup_lt_Some.
      * by rewrite list_lookup_insert_ne, list_lookup_alter_ne.
    + apply list_eq. intros i. destruct (decide (r = i)) as [->|Hne].
      * rewrite list_lookup_alter_eq, Hb. simpl. by rewrite Hd.
      * by rewrite list_lookup_alter_ne.
  - apply list_eq. intros i. destruct (decide (r = i)) as [->|Hne].
    + by rewrite list_lookup_alter_eq, Hb.
    + by rewrite list_lookup_alter_ne.
Qed.

Lemma still_applyForce r f rp h : still h (applyForce r f rp h).
Proof.
  rewrite applyForce_alter. apply still_alter. intros b. by destruct (btype b).
Qed.

Lemma still_pushBody p mx my h r : still h (pushBody p mx my h r).
Proof.
  unfold pushBody. destruct (h !! r) as [b|]; [|apply still_refl].
  destruct (pushForce p mx my b); [apply still_applyForce | apply still_refl].
Qed.

Lemma still_pairStep p a b h : still h (pairStep p a b h).
Proof.
  unfold pairStep. destruct (h !! a) as [A|]; [|apply still_refl].
  destruct (h !! b) as [B|]; [|apply still_refl].
  destruct (pairForce p A B); [|apply still_refl].
  eapply still_trans; apply still_applyForce.
Qed.

Lemma still_innerLoop p a rest h : still h (innerLoop p a rest h).
Proof.
  revert h. induction rest as [|b rest IH]; intros h; simpl.
  - apply still_refl.
  - eapply still_trans; [apply still_pairStep | apply IH].
Qed.

Lemma still_outerLoop p bodies h : still h (outerLoop p bodies h).
Proof.
  revert h. induction bodies as [|a rest IH]; intros h; simpl.
  - apply still_refl.
  - eapply still_trans; [apply still_innerLoop | apply IH].
Qed.

Lemma foldl_alter_notin (f : Body T -> Body T) (l : list nat) : forall h r,
  r ∉ l -> foldl (fun h r => alter f r h) h l !! r = h !! r.
Proof.
  induction l as [|a l IH]; intros h r Hr; [done|]. simpl.
  apply not_elem_of_cons in Hr as [Hne Hr].
  rewrite IH by done. by rewrite list_lookup_alter_ne.
Qed.

Lemma foldl_alter_in (f : Body T -> Body T) (l : list nat) : forall h r,
  NoDup l -> r ∈ l -> foldl (fun h r => alter f r h) h l !! r = f <$> h !! r.
Proof.
  induction l as [|a l IH]; intros h r Hnd Hr; [by apply elem_of_nil in Hr|].
  apply NoDup_cons in Hnd as [Ha Hnd]. simpl.
  destruct (decide (r = a)) as [->|Hne].
  - rewrite foldl_alter_notin by done. apply list_lookup_alter_eq.
  - apply elem_of_cons in Hr as [?|Hr]; [done|].
    rewrite IH by done. by rewrite list_lookup_alter_ne.
Qed.

(** [applyForces] writes force and torque accumulators only. *)
Lemma still_applyForces p mx my bodies h : still h (applyForces p mx my bodies h).
Proof.
  unfold applyForces. eapply still_trans; [|apply still_outerLoop].
  apply still_foldl. intros. apply still_pushBody.
Qed.

Lemma stable_worldStep solve dt (w : World T) h : stable h (worldStep solve dt w h).
Proof.
  unfold worldStep, clearForces, writeBack, addGravity.
  eapply stable_trans; [|apply stable_foldl; intros; by apply stable_alter].
  eapply stable_trans; [|apply stable_foldl; intros; by apply stable_alter].
  apply stable_foldl. intros h' r. apply stable_alter.
  intros b. unfold addGravityTo. by destruct (btype b).
Qed.

(** [world.step] leaves no force on the bodies of the world. *)
Lemma worldStep_clears solve dt (w : World T) h r :
  NoDup (bodies w) -> r ∈ bodies w -> r < length h ->
  exists b, worldStep solve dt w h !! r = Some b /\ force b = vzero /\ torque b = vzero.
Proof.
  intros Hnd Hr Hlt.
  destruct (stable_worldStep solve dt w h) as [Hlen _].
  unfold worldStep, clearForces in *. set (h2 := writeBack _ _ _) in *.
  destruct (stable_foldl (fun h r => alter (set_force vzero vzero) r h) (bodies w) h2)
    as [Hlen2 _]; [intros; by apply stable_alter|].
  destruct (lookup_lt_is_Some_2 h2 r) as [b2 Hb2]; [lia|].
  exists (set_force vzero vzero b2). rewrite foldl_alter_in, Hb2 by done. done.
Qed.

Lemma pushBody_alter p mx my h r : pushBody p mx my h r = alter (pushed p mx my) r h.
Proof.
  unfold pushBody. destruct (h !! r) as [b|] eqn:Hb.
  - destruct (pushForce p mx my b) as [f|] eqn:Hf.
    + rewrite applyForce_alter. apply list_eq. intros i.
      destruct (decide (r = i)) as [->|Hne].
      * rewrite !list_lookup_alter_eq, Hb. simpl. unfold pushed. by rewrite Hf.
      * by rewrite !list_lookup_alter_ne.
    + apply list_eq. intros i. destruct (decide (r = i)) as [->|Hne].
      * rewrite list_lookup_alter_eq, Hb. simpl. unfold pushed. by rewrite Hf.
      * by rewrite list_lookup_alter_ne.
  - apply list_eq. intros i. destruct (decide (r = i)) as [->|Hne].
    + by rewrite list_lookup_alter_eq, Hb.
    + by rewrite list_lookup_alter_ne.
Qed.

Lemma foldl_pointwise {A B} (f g : A -> B -> A) (l : list B) a :
  (forall a b, f a b = g a b) -> foldl f a l = foldl g a l.
Proof.
  intros E. revert a. induction l as [|b l IH]; intros a; simpl; [done|].
  by rewrite E, IH.
Qed.

(** The loop of line 279 pushes every body of the array once. *)
Lemma pushLoop_in p mx my (bodies : list nat) h r :
  NoDup bodies -> r ∈ bodies ->
  foldl (pushBody p mx my) h bodies !! r = pushed p mx my <$> h !! r.
Proof.
  intros Hnd Hr.
  rewrite (foldl_pointwise _ (fun h r => alter (pushed p mx my) r h)) by apply pushBody_alter.
  by apply foldl_alter_in.
Qed.

(** The push loop on one particle of the array, in every arithmetic: the
    guard of line 284 reads the computed distance; within it the particle
    accumulates the vector of lines 285-288, outside it nothing. *)
Lemma push_phase (p : Params T) (mx my : T) (bodies : list nat) h r (P : Body T) :
  let dx := (vx (position P) - mx)%num in
  let dy := (vy (position P) - my)%num in
  let d := dist (pointer mx my) (position P) in
  let inRange := ((d <? pushRadius p) && (ofZ 1 <? d))%num in
  let afterPush := foldl (pushBody p mx my) h bodies in
  NoDup bodies -> r ∈ bodies -> h !! r = Some P -> btype P = DYNAMIC ->
  (inRange = true ->
     exists f, pushForce p mx my P = Some f
       /\ f = mkVec3 (dx / d * ((pushRadius p - d) / pushRadius p) * pushStrength p)%num
                     (dy / d * ((pushRadius p - d) / pushRadius p) * pushStrength p)%num
                     (ofZ 0)
       /\ force <$> afterPush !! r = Some (vadd (force P) f))
  /\ (inRange = false -> pushForce p mx my P = None /\ afterPush !! r = Some P).
Proof.
  intros dx dy d inRange afterPush Hnd Hr HP Hdyn.
  assert (Hafter : afterPush !! r = Some (pushed p mx my P)).
  { unfold afterPush. rewrite pushLoop_in by done. by rewrite HP. }
  assert (Hf : pushForce p mx my P
               = if inRange
                 then Some (mkVec3
                        (dx / d * ((pushRadius p - d) / pushRadius p) * pushStrength p)%num
                        (dy / d * ((pushRadius p - d) / pushRadius p) * pushStrength p)%num
                        (ofZ 0))
                 else None) by reflexivity.
  split; intros Hin; rewrite Hin in Hf.
  - eexists. split; [exact Hf|]. split; [done|].
    rewrite Hafter. unfold pushed. rewrite Hf, Hdyn. done.
  - split; [done|]. rewrite Hafter. unfold pushed. by rewrite Hf.
Qed.

End StoreLemmas.

(** ** The pairs of the nested loops *)

Section Pairs.

Context {T : Type} `{NT : Number T}.
Implicit Types (h : Heap T).

Lemma innerLoop_foldl (p : Params T) a (rest : list nat) h :
  innerLoop p a rest h
  = foldl (fun h ab => pairStep p (fst ab) (snd ab) h) h ((fun b => (a, b)) <$> rest).
Proof. revert h. induction rest as [|b rest IH]; intros h; simpl; [done|apply IH]. Qed.

(** The nested loops run the pair step once on every pair of [pairsOf]. *)
Lemma outerLoop_pairs (p : Params T) (l : list nat) h :
  outerLoop p l h = foldl (fun h ab => pairStep p (fst ab) (snd ab) h) h (pairsOf l).
Proof.
  revert h. induction l as [|a rest IH]; intros h; simpl; [done|].
  by rewrite foldl_app, IH, innerLoop_foldl.
Qed.

Lemma elem_of_pairsOf (l : list nat) a b :
  (a, b) ∈ pairsOf l <-> exists i j, i < j /\ l !! i = Some a /\ l !! j = Some b.
Proof.
  induction l as [|x rest IH]; simpl.
  - split; [by intros ?%elem_of_nil|]. by intros (i & j & _ & ? & _).
  - rewrite elem_of_app, list_elem_of_fmap, IH. split.
    + intros [(b' & Heq & Hb) | (i & j & Hlt & Hi & Hj)].
      * inversion Heq; subst. apply list_elem_of_lookup in Hb as [k Hk].
        exists 0, (S k). split; [lia|]. done.
      * exists (S i), (S j). split; [lia|]. done.
    + intros (i & j & Hlt & Hi & Hj). destruct j as [|j]; [lia|].
      destruct i as [|i].
      * left. exists b. simpl in Hi, Hj. inversion Hi; subst. split; [done|].
        by eapply list_elem_of_lookup_2.
      * right. exists i, j. split; [lia|]. done.
Qed.

End Pairs.

(** ** The force law, in real arithmetic *)

Section ForceLaw.

Local Open Scope R_scope.

Lemma R_lt_true a b : R_lt a b = true <-> a < b.
Proof. unfold R_lt. destruct (Rlt_dec a b); split; intros; try lra; congruence. Qed.
Lemma R_lt_false a b : R_lt a b = false <-> b <= a.
Proof. unfold R_lt. destruct (Rlt_dec a b); split; intros; try lra; congruence. Qed.


Lemma dist_sqr a b : dist a b * dist a b = (vx b - vx a) * (vx b - vx a) + (vy b - vy a) * (vy b - vy a).
Proof.
  unfold dist. simpl. apply sqrt_sqrt.
  apply Rplus_le_le_0_compat; apply Rle_0_sqr.
Qed.

Lemma norm_vscale_unitTo k a b : 0 < dist a b -> 0 <= k -> norm (vscale k (unitTo a b)) = k.
Proof.
  intros Hd Hk. pose proof (dist_sqr a b) as E.
  unfold norm, vscale, unitTo. cbn [vx vy vz].
  set (d := dist a b) in *. set (dx := vx b - vx a) in *. set (dy := vy b - vy a) in *.
  replace (k * (dx / d) * (k * (dx / d)) + k * (dy / d) * (k * (dy / d)) + k * 0 * (k * 0))
    with ((dx * dx + dy * dy) / (d * d) * (k * k)) by (field; lra).
  rewrite <- E. replace (d * d / (d * d) * (k * k)) with (k * k) by (field; lra).
  by apply sqrt_square.
Qed.





Lemma pushForce_in_range (p : Params R) (mx my : R) (P : Body R) :
  let d := dist (pointer mx my) (position P) in
  1 < d < pushRadius p ->
  pushForce p mx my P
    = Some (vscale ((pushRadius p - d) / pushRadius p * pushStrength p)
                   (unitTo (pointer mx my) (position P))).
Proof.
  intros d [H1 H2]. unfold pushForce. simpl.
  change (sqrt _) with d.
  assert (R_lt d (pushRadius p) = true) as -> by (apply R_lt_true; lra).
  assert (R_lt 1 d = true) as -> by (apply R_lt_true; lra).
  simpl. unfold vscale, unitTo. fold d. unfold pointer. cbn [vx vy vz].
  f_equal. f_equal; ring.
Qed.

Lemma pushForce_out_of_range (p : Params R) (mx my : R) (P : Body R) :
  let d := dist (pointer mx my) (position P) in
  d <= 1 \/ pushRadius p <= d -> pushForce p mx my P = None.
Proof.
  intros d H. unfold pushForce. simpl.
  change (sqrt _) with d.
  destruct H as [H|H].
  - assert (R_lt 1 d = false) as -> by (apply R_lt_false; lra).
    by rewrite andb_false_r.
  - by assert (R_lt d (pushRadius p) = false) as -> by (apply R_lt_false; lra).
Qed.

Lemma pushScale_pos (pR pS d : R) : 1 < d < pR -> 0 <= pS -> 0 <= (pR - d) / pR * pS.
Proof.
  intros [H1 H2] HS. apply Rmult_le_pos; [|done].
  apply Rmult_le_pos; [lra|]. left. apply Rinv_0_lt_compat. lra.
Qed.

(** C3.  In every arithmetic, binary64 included, the guard of the push reads
    the distance [d] as the code computes it: a dynamic particle of the array
    with [d < pushRadius] and [1 < d] accumulates, in the first loop of
    [applyForces], the vector [(dx / d, dy / d)] times
    [(pushRadius - d) / pushRadius] times [pushStrength]; with [d <= 1],
    [d >= pushRadius] or no such order at all, it accumulates nothing there.
    Over the real numbers that vector is
    [(pushRadius - d) / pushRadius * pushStrength] times the unit vector from
    the pointer to the particle and has that magnitude when the strength is
    not negative: half of [pushStrength] for the pointer at the origin,
    radius 80 and distance 40. *)
Theorem pointer_repulsion_law :
  (forall (T : Type) (NT : Number T) (p : Params T) (mx my : T) (bodies : list nat)
          (h : Heap T) (r : BodyRef) (P : Body T),
     let dx := (vx (position P) - mx)%num in
     let dy := (vy (position P) - my)%num in
     let d := dist (pointer mx my) (position P) in
     let inRange := ((d <? pushRadius p) && (ofZ 1 <? d))%num in
     let afterPush := foldl (pushBody p mx my) h bodies in
     NoDup bodies -> r ∈ bodies -> h !! r = Some P -> btype P = DYNAMIC ->
     applyForces p mx my bodies h = outerLoop p bodies afterPush
     /\ (inRange = true ->
           exists f, pushForce p mx my P = Some f
             /\ f = mkVec3
                      (dx / d * ((pushRadius p - d) / pushRadius p) * pushStrength p)%num
                      (dy / d * ((pushRadius p - d) / pushRadius p) * pushStrength p)%num
                      (ofZ 0)
             /\ force <$> afterPush !! r = Some (vadd (force P) f))
     /\ (inRange = false -> pushForce p mx my P = None /\ afterPush !! r = Some P))
  /\ (forall (p : Params R) (mx my : R) (P : Body R),
     let d := dist (pointer mx my) (position P) in
     let magnitude := (pushRadius p - d) / pushRadius p * pushStrength p in
     (1 < d < pushRadius p ->
        exists f, pushForce p mx my P = Some f
          /\ f = vscale magnitude (unitTo (pointer mx my) (position P))
          /\ (0 <= pushStrength p -> norm f = magnitude)
          /\ (mx = 0 -> my = 0 -> pushRadius p = 80 -> d = 40 -> 0 <= pushStrength p ->
              norm f = 0.5 * pushStrength p))
     /\ (d <= 1 \/ pushRadius p <= d -> pushForce p mx my P = None)).
Proof.
  split.
  - intros T NT p mx my bodies h r P dx dy d inRange afterPush Hnd Hr HP Hdyn.
    split; [reflexivity|].
    by apply (push_phase p mx my bodies h r P).
  - intros p mx my P d magnitude. split.
    + intros Hd. pose proof (pushForce_in_range p mx my P Hd) as Hf.
      fold d in Hf. fold magnitude in Hf.
      assert (Hn : 0 <= pushStrength p ->
                   norm (vscale magnitude (unitTo (pointer mx my) (position P))) = magnitude).
      { intros HS. apply norm_vscale_unitTo; [fold d; lra|].
        by apply pushScale_pos. }
      eexists. split; [exact Hf|]. split; [done|]. split; [done|].
      intros _ _ HR H40 HS. rewrite Hn by done. unfold magnitude.
      rewrite HR, H40. lra.
    + intros Hd. by apply pushForce_out_of_range.
Qed.

(** C4, amended.  In every arithmetic two dynamic particles of the array
    within reach of the pointer accumulate, in the first loop of
    [applyForces], the vectors [(dx / d, dy / d)] times
    [(pushRadius - d) / pushRadius] times [pushStrength], each for its own
    computed distance [d].  Over the real numbers, for positive [pushStrength]
    and [pushRadius], these vectors have the magnitudes
    [(pushRadius - d) / pushRadius * pushStrength], and of two distances
    [1 < d1 < d2 < pushRadius] the smaller one gives the strictly larger
    magnitude. *)
Theorem pointer_repulsion_strictly_decreasing :
  (forall (T : Type) (NT : Number T) (p : Params T) (mx my : T) (bodies : list nat)
          (h : Heap T) (r1 r2 : BodyRef) (P1 P2 : Body T),
     let d := fun P => dist (pointer mx my) (position P) in
     let inRange := fun P => ((d P <? pushRadius p) && (ofZ 1 <? d P))%num in
     let push := fun P =>
       mkVec3 ((vx (position P) - mx) / d P
                 * ((pushRadius p - d P) / pushRadius p) * pushStrength p)%num
              ((vy (position P) - my) / d P
                 * ((pushRadius p - d P) / pushRadius p) * pushStrength p)%num
              (ofZ 0) in
     let afterPush := foldl (pushBody p mx my) h bodies in
     NoDup bodies -> r1 ∈ bodies -> r2 ∈ bodies ->
     h !! r1 = Some P1 -> h !! r2 = Some P2 -> btype P1 = DYNAMIC -> btype P2 = DYNAMIC ->
     inRange P1 = true -> inRange P2 = true ->
     applyForces p mx my bodies h = outerLoop p bodies afterPush
     /\ pushForce p mx my P1 = Some (push P1)
     /\ pushForce p mx my P2 = Some (push P2)
     /\ force <$> afterPush !! r1 = Some (vadd (force P1) (push P1))
     /\ force <$> afterPush !! r2 = Some (vadd (force P2) (push P2)))
  /\ (forall (p : Params R) (mx my : R) (P1 P2 : Body R),
     let d1 := dist (pointer mx my) (position P1) in
     let d2 := dist (pointer mx my) (position P2) in
     0 < pushStrength p -> 0 < pushRadius p ->
     1 < d1 -> d1 < d2 -> d2 < pushRadius p ->
     exists f1 f2,
       pushForce p mx my P1 = Some f1 /\ pushForce p mx my P2 = Some f2
       /\ norm f1 = (pushRadius p - d1) / pushRadius p * pushStrength p
       /\ norm f2 = (pushRadius p - d2) / pushRadius p * pushStrength p
       /\ norm f2 < norm f1).
Proof.
  split.
  - intros T NT p mx my bodies h r1 r2 P1 P2 d inRange push afterPush
           Hnd Hr1 Hr2 HP1 HP2 Hd1 Hd2 Hin1 Hin2.
    split; [reflexivity|].
    destruct (push_phase p mx my bodies h r1 P1 Hnd Hr1 HP1 Hd1) as [H1 _].
    destruct (push_phase p mx my bodies h r2 P2 Hnd Hr2 HP2 Hd2) as [H2 _].
    destruct (H1 Hin1) as (f1 & Hp1 & -> & Hf1).
    destruct (H2 Hin2) as (f2 & Hp2 & -> & Hf2).
    by repeat split.
  - intros p mx my P1 P2 d1 d2 HS HR H1 H12 H2.
    assert (Hr1 : 1 < d1 < pushRadius p) by lra.
    assert (Hr2 : 1 < d2 < pushRadius p) by lra.
    pose proof (pushForce_in_range p mx my P1 Hr1) as Hf1.
    pose proof (pushForce_in_range p mx my P2 Hr2) as Hf2.
    fold d1 in Hf1. fold d2 in Hf2.
    do 2 eexists. split; [exact Hf1|]. split; [exact Hf2|].
    rewrite !norm_vscale_unitTo;
      try (fold d1; lra); try (fold d2; lra);
      try (apply pushScale_pos; lra).
    split; [done|]. split; [done|].
    apply Rmult_lt_compat_r; [done|].
    apply Rmult_lt_compat_r; [apply Rinv_0_lt_compat; lra | lra].
Qed.

Lemma R_truthy_true a : a <> 0 -> R_truthy a = true.
Proof. intros H. unfold R_truthy. by destruct (Req_dec_T a 0). Qed.

Lemma deltaTime_history (prev time : R) :
  prev <> 0 -> deltaTime prev time = Rmin ((time - prev) / 1000) (1 / 10).
Proof. intros H. unfold deltaTime. simpl. by rewrite R_truthy_true. Qed.

Lemma deltaTime_first (time : R) : deltaTime 0 time = 16 / 1000.
Proof.
  unfold deltaTime. simpl. unfold R_truthy.
  destruct (Req_dec_T 0 0); [reflexivity | congruence].
Qed.

End ForceLaw.

(** ** The world and the component *)

Section WorldLemmas.

Context {T : Type} `{NT : Number T}.
Implicit Types (h : Heap T) (w : World T) (s : Sim T).

Lemma set_bodies_bodies w : set_bodies (bodies w) w = w.
Proof. by destruct w. Qed.

Lemma spliceOut_app r (m l2 : list nat) :
  r ∈ m -> spliceOut r (m ++ l2) = spliceOut r m ++ l2.
Proof.
  induction m as [|a m IH]; intros Hin; [by apply elem_of_nil in Hin|].
  simpl. destruct (Nat.eqb a r) eqn:E; [done|]. simpl. f_equal. apply IH.
  apply elem_of_cons in Hin as [->|]; [|done]. by rewrite Nat.eqb_refl in E.
Qed.

Lemma spliceOut_length r (m : list nat) :
  r ∈ m -> S (length (spliceOut r m)) = length m.
Proof.
  induction m as [|a m IH]; intros Hin; [by apply elem_of_nil in Hin|].
  simpl. destruct (Nat.eqb a r) eqn:E; [done|]. simpl. f_equal. apply IH.
  apply elem_of_cons in Hin as [->|]; [|done]. by rewrite Nat.eqb_refl in E.
Qed.

Lemma spliceOut_filter (P : nat -> Prop) `{!forall x, Decision (P x)} r (m : list nat) :
  ~ P r -> filter P (spliceOut r m) = filter P m.
Proof.
  intros Hr. induction m as [|a m IH]; [done|]. simpl.
  destruct (Nat.eqb a r) eqn:E.
  - apply Nat.eqb_eq in E as ->. by rewrite filter_cons_False.
  - rewrite !filter_cons. by rewrite IH.
Qed.

(** The removal loop of [handleResize] keeps the particles of the part of
    [world.bodies] it has visited, in their order. *)
Lemma removeLoop_spec (pb : list nat) n : forall w (l1 l2 : list nat),
  bodies w = l1 ++ l2 -> length l1 = n ->
  removeLoop pb n w = set_bodies (filter (fun r => r ∈ pb) l1 ++ l2) w.
Proof.
  induction n as [|i IH]; intros w l1 l2 Hb Hl.
  - destruct l1; [|done]. simpl in *. rewrite <- Hb. by rewrite set_bodies_bodies.
  - destruct l1 as [|x l1' _] using rev_ind; [done|].
    rewrite length_app in Hl. simpl in Hl.
    assert (Hi : length l1' = i) by lia.
    simpl. rewrite Hb, <- app_assoc. simpl.
    rewrite list_lookup_middle by done.
    unfold includes. case_bool_decide as Hx.
    + rewrite (IH w l1' (x :: l2)); [|by rewrite Hb, <- app_assoc|done].
      rewrite filter_app, filter_cons_True, filter_nil by done.
      by rewrite <- app_assoc.
    + assert (Hin : x ∈ l1' ++ [x]) by (apply elem_of_app; right; by apply list_elem_of_singleton).
      rewrite (IH (removeBody x w) (spliceOut x (l1' ++ [x])) l2).
      * rewrite spliceOut_filter by done. done.
      * simpl. rewrite Hb. by apply spliceOut_app.
      * pose proof (spliceOut_length x _ Hin) as HL.
        rewrite length_app in HL. simpl in HL. lia.
Qed.

Lemma removeLoop_filter (pb : list nat) w :
  removeLoop pb (length (bodies w)) w
    = set_bodies (filter (fun r => r ∈ pb) (bodies w)) w.
Proof.
  rewrite (removeLoop_spec pb _ w (bodies w) []); [|by rewrite app_nil_r|done].
  by rewrite app_nil_r.
Qed.

Lemma addBody_fresh r w :
  r ∉ bodies w -> addBody r w = set_bodies (bodies w ++ [r]) w.
Proof. intros Hr. unfold addBody, includes. by rewrite bool_decide_eq_false_2. Qed.

Lemma fresh_address h (l : list nat) :
  Forall (fun r => r < length h) l -> length h ∉ l.
Proof.
  intros Hall Hin. rewrite Forall_forall in Hall. apply Hall in Hin. lia.
Qed.

Lemma createWall_fresh bm x y wd ht h w :
  Forall (fun r => r < length h) (bodies w) ->
  createWall bm x y wd ht (h, w)
    = (h ++ [wallBody bm x y wd ht], set_bodies (bodies w ++ [length h]) w).
Proof.
  intros Hall. unfold createWall, alloc. simpl.
  by rewrite addBody_fresh by by apply fresh_address.
Qed.

Lemma Forall_lt_snoc h (b : Body T) (l : list nat) :
  Forall (fun r => r < length h) l ->
  Forall (fun r => r < length (h ++ [b])) (l ++ [length h]).
Proof.
  intros Hall. rewrite length_app. simpl. apply Forall_app. split.
  - eapply Forall_impl; [exact Hall|]. simpl. intros. lia.
  - apply Forall_singleton. lia.
Qed.

(** [createBoundaries] in closed form. *)
Lemma createBoundaries_spec W H s w :
  worldRef s = Some w ->
  Forall (fun r => r < length (heap s)) (bodies w) ->
  createBoundaries W H s
    = set_materialId (S (nextMaterialId s))
        (set_physics
           (heap s ++ boundaryWalls (boundaryMaterialAt (nextMaterialId s)) W H)
           (mkWorld (gravity w) (broadphase w)
                    (bodies w ++ seq (length (heap s)) 4)
                    (contactmaterials w ++ registered s) (defaultMaterial w))
           s).
Proof.
  intros Hw Hall. unfold createBoundaries. rewrite Hw.
  set (bm := mkMaterial (nextMaterialId s) "boundaryMaterial" (ofZ 0) (dec 5 10)).
  set (w1 := match bodiesRef s with [] => w | _ => _ end).
  assert (Hw1 : w1 = mkWorld (gravity w) (broadphase w) (bodies w)
                             (contactmaterials w ++ registered s) (defaultMaterial w)).
  { unfold w1, registered. destruct (bodiesRef s) as [|r0 ?].
    - rewrite app_nil_r. by destruct w.
    - destruct (h0 ← heap s !! r0; material h0).
      + done.
      + rewrite app_nil_r. by destruct w. }
  assert (Hall1 : Forall (fun r => r < length (heap s)) (bodies w1)) by by rewrite Hw1.
  rewrite createWall_fresh by done.
  rewrite createWall_fresh by by apply Forall_lt_snoc.
  rewrite createWall_fresh by by do 2 apply Forall_lt_snoc.
  rewrite createWall_fresh by by do 3 apply Forall_lt_snoc.
  simpl. rewrite Hw1. simpl. unfold boundaryWalls, boundaryMaterialAt. fold bm.
  rewrite <- !app_assoc. simpl. rewrite !length_app. simpl.
  rewrite ?Nat.add_succ_r, ?Nat.add_0_r. done.
Qed.

Lemma createParticles_fold p pm (initPos : nat -> T * T) k h w sc :
  Forall (fun r => r < length h) (bodies w) ->
  foldl (fun acc i => createParticle p pm (initPos i) acc) (h, w, sc, [], []) (seq 0 k)
  = (h ++ ((fun i => particleBody p pm (fst (initPos i)) (snd (initPos i))) <$> seq 0 k),
     set_bodies (bodies w ++ seq (length h) k) w,
     k + sc,
     (fun i => mkMesh (mkVec3 (fst (initPos i)) (snd (initPos i)) (ofZ 0)) (ofZ 0)) <$> seq 0 k,
     seq (length h) k).
Proof.
  intros Hall. induction k as [|k IH].
  - simpl. rewrite !app_nil_r. by rewrite set_bodies_bodies.
  - rewrite !seq_S, !fmap_app, foldl_app, IH. simpl.
    unfold alloc. rewrite addBody_fresh.
    + simpl. rewrite length_app, length_fmap, length_seq.
      rewrite <- !app_assoc. done.
    + simpl. rewrite length_app, length_fmap, length_seq.
      intros Hin. apply elem_of_app in Hin as [Hin|Hin].
      * rewrite Forall_forall in Hall. apply Hall in Hin. lia.
      * apply elem_of_seq in Hin. lia.
Qed.

Lemma derefAll_cons h r (rs : list nat) :
  derefAll h (r :: rs)
  = match h !! r with Some b => b :: derefAll h rs | None => derefAll h rs end.
Proof. done. Qed.

Lemma derefAll_lookup h (rs : list nat) :
  Forall (fun r => is_Some (h !! r)) rs ->
  forall i, derefAll h rs !! i = (r ← rs !! i; h !! r).
Proof.
  induction 1 as [|r rs [b Hb] _ IH]; intros i; [done|].
  rewrite derefAll_cons, Hb. destruct i as [|i]; simpl; [done|]. apply IH.
Qed.

End WorldLemmas.

(** ** The life of the mounted component *)

Section Lifecycle.

Context {T : Type} `{NT : Number T}.
Implicit Types (h : Heap T) (w : World T) (s : Sim T).

Lemma identity_particleBody p pm x y x' y' :
  identity (particleBody p pm x y) = identity (particleBody (T:=T) p pm x' y').
Proof. done. Qed.

(** [mount] on a fresh component, in closed form. *)
Lemma mount_fresh (p : Params T) W H initPos :
  let n := numParticles p in
  let particles := (fun i => particleBody p particleMaterial1 (fst (initPos i)) (snd (initPos i))) <$> seq 0 n in
  let s1 := mkSim p p particles
              (Some (mkWorld (mkVec3 (ofZ 0) (- ofZ 1000)%num (ofZ 0)) SAPBroadphase
                             (seq 0 n)
                             [mkContactMaterial particleMaterial1 particleMaterial1
                                                (dec 1 100) (dec 3 10)]
                             (mkMaterial 0 "default" (- ofZ 1)%num (- ofZ 1)%num)))
              (Some (n + 0))
              (seq 0 n)
              ((fun i => mkMesh (mkVec3 (fst (initPos i)) (snd (initPos i)) (ofZ 0)) (ofZ 0)) <$> seq 0 n)
              (Some (cameraFor W H)) (Some (W, H)) (ofZ 0, ofZ 0) (ofZ 0) None 2 [] in
  mount W H initPos (fresh p) = requestFrame (createBoundaries W H s1).
Proof.
  intros n particles s1. unfold mount. f_equal. f_equal.
  unfold createParticles, fresh. simpl.
  rewrite createParticles_fold by (simpl; constructor).
  done.
Qed.

Lemma Forall_lt_app_seq (l : list nat) n k :
  Forall (fun r => r < n) l -> Forall (fun r => r < n + k) (l ++ seq n k).
Proof.
  intros Hall. apply Forall_app. split.
  - eapply Forall_impl; [exact Hall|]. simpl. intros. lia.
  - apply Forall_forall. intros r Hr. apply elem_of_seq in Hr. lia.
Qed.

(** [handleResize] on a mounted component, in closed form. *)
Lemma handleResize_spec p W H s w :
  wf p s -> worldRef s = Some w ->
  handleResize W H s
    = set_materialId (S (nextMaterialId s))
        (set_physics
           (heap s ++ boundaryWalls (boundaryMaterialAt (nextMaterialId s)) W H)
           (mkWorld (gravity w) (broadphase w)
                    (filter (fun r => r ∈ bodiesRef s) (bodies w)
                     ++ seq (length (heap s)) 4)
                    (contactmaterials w ++ registered s) (defaultMaterial w))
           (set_view (cameraFor W H) (W, H) s)).
Proof.
  intros Hwf Hw. destruct Hwf as [_ (w' & Hw' & _ & _ & Hlt & _) [[c Hc] [rd Hrd]] _ _ _].
  assert (w' = w) as -> by congruence.
  unfold handleResize. rewrite Hc, Hrd. simpl. rewrite Hw.
  rewrite removeLoop_filter.
  rewrite (createBoundaries_spec W H _
             (set_bodies (filter (fun r => r ∈ bodiesRef s) (bodies w)) w)).
  - done.
  - done.
  - simpl. apply Forall_forall. intros r Hr.
    apply list_elem_of_filter in Hr as [_ Hr].
    rewrite Forall_forall in Hlt. by apply Hlt.
Qed.

Lemma mount_wf (p : Params T) W H initPos : wf p (mount W H initPos (fresh p)).
Proof.
  rewrite mount_fresh.
  erewrite createBoundaries_spec; [|simpl; reflexivity|].
  2:{ simpl. rewrite length_fmap, length_seq. apply Forall_forall.
      intros r Hr. apply elem_of_seq in Hr. lia. }
  set (n := numParticles p).
  split; simpl.
  - done.
  - eexists. split; [done|]. split; [done|]. simpl.
    rewrite length_fmap, length_seq. fold n. split; [|split].
    + apply NoDup_app. split; [apply NoDup_seq|]. split; [|apply (NoDup_seq n 4)].
      intros r Hr Hr'. apply elem_of_seq in Hr. apply (elem_of_seq n 4) in Hr'. lia.
    + rewrite length_app, length_fmap, length_seq. simpl.
      apply Forall_lt_app_seq. apply Forall_forall. intros r Hr.
      apply elem_of_seq in Hr. lia.
    + apply Forall_forall. intros r Hr. apply elem_of_app. by left.
  - split; eauto.
  - apply Forall_forall. intros r Hr. apply elem_of_seq in Hr.
    eexists. split; [|apply identity_particleBody].
    rewrite lookup_app_l by (rewrite length_fmap, length_seq; lia).
    rewrite list_lookup_fmap, lookup_seq_lt by lia. done.
  - apply length_seq.
  - rewrite length_fmap. apply length_seq.
Qed.

(** A handler that keeps the addresses and identities of the store, the
    world and the arrays keeps the component well formed. *)
Lemma wf_update p s s' :
  wf p s ->
  closure s' = closure s -> worldRef s' = worldRef s ->
  stable (heap s) (heap s') -> bodiesRef s' = bodiesRef s ->
  length (particlesRef s') = length (particlesRef s) ->
  cameraRef s' = cameraRef s -> rendererRef s' = rendererRef s ->
  wf p s'.
Proof.
  intros [Hc (w & Hw & Hg & Hnd & Hlt & Hin) Hv Hp Hb Hm] Ec Ew [El Es] Eb Em Ecam Er.
  split.
  - congruence.
  - exists w. rewrite Ew, El, Eb. done.
  - by rewrite Ecam, Er.
  - rewrite Eb. eapply Forall_impl; [exact Hp|]. simpl.
    intros r (b & Hb' & Hi). destruct (Es r b Hb') as (b' & ? & ?).
    exists b'. split; [done|congruence].
  - congruence.
  - congruence.
Qed.

Lemma animate_wf solve p time s : wf p s -> wf p (animate solve time s).
Proof.
  intros Hwf. pose proof Hwf as [_ (w & Hw & _) _ _ _ _].
  unfold animate. rewrite Hw.
  eapply wf_update; [exact Hwf|simpl..]; try done.
  - eapply stable_trans; [apply stable_worldStep|].
    apply still_stable, still_applyForces.
  - apply length_imap.
Qed.

Lemma handleResize_wf p W H s : wf p s -> wf p (handleResize W H s).
Proof.
  intros Hwf. pose proof Hwf as [Hc (w & Hw & Hg & Hnd & Hlt & Hin) Hv Hp Hb Hm].
  rewrite (handleResize_spec p W H s w) by done.
  split; simpl; try done.
  - eexists. split; [done|]. split; [done|]. simpl. split; [|split].
    + apply NoDup_app. split; [by apply NoDup_filter|].
      split; [|apply (NoDup_seq _ 4)].
      intros r Hr Hr'. apply list_elem_of_filter in Hr as [_ Hr].
      rewrite Forall_forall in Hlt. apply Hlt in Hr.
      apply (elem_of_seq _ 4) in Hr'. lia.
    + rewrite length_app. simpl. apply Forall_lt_app_seq.
      apply Forall_forall. intros r Hr.
      apply list_elem_of_filter in Hr as [_ Hr].
      rewrite Forall_forall in Hlt. by apply Hlt.
    + apply Forall_forall. intros r Hr. apply elem_of_app. left.
      apply list_elem_of_filter. split; [done|].
      rewrite Forall_forall in Hin. by apply Hin.
  - eapply Forall_impl; [exact Hp|]. simpl. intros r (b & Hb' & Hi).
    exists b. split; [|done]. by apply lookup_app_l_Some.
Qed.

Lemma handle_wf solve p i s : wf p s -> wf p (handle solve i s).
Proof.
  intros Hwf. destruct i; simpl.
  - by apply animate_wf.
  - by apply handleResize_wf.
  - eapply wf_update; [exact Hwf|simpl..]; try done. apply stable_refl.
  - eapply wf_update; [exact Hwf|simpl..]; try done. apply stable_refl.
  - eapply wf_update; [exact Hwf|simpl..]; try done. apply stable_refl.
Qed.

Lemma run_snoc solve (inputs : list (Input T)) i s :
  run solve (inputs ++ [i]) s = handle solve i (run solve inputs s).
Proof. unfold run. by rewrite foldl_app. Qed.

Lemma run_frame solve (inputs : list (Input T)) (time : T) s :
  run solve (inputs ++ [Frame time]) s = animate solve time (run solve inputs s).
Proof. by rewrite run_snoc. Qed.

Lemma run_wf_from solve p (inputs : list (Input T)) s :
  wf p s -> wf p (run solve inputs s).
Proof.
  intros Hwf. induction inputs as [|i inputs IH] using rev_ind; [done|].
  rewrite run_snoc. by apply handle_wf.
Qed.

(** Every state the mounted component reaches is well formed. *)
Lemma run_wf solve (p : Params T) W H initPos inputs :
  wf p (run solve inputs (mount W H initPos (fresh p))).
Proof. apply run_wf_from, mount_wf. Qed.

(** The events of one frame. *)
Lemma animate_trace solve time s w :
  worldRef s = Some w ->
  trace (animate solve time s)
    = trace s ++ [EvRequestFrame;
                  EvStep (deltaTime (prevTimeRef s) time) (particleForces s);
                  EvApplyForces (particleForces (animate solve time s));
                  EvUpdatePositions; EvRender].
Proof.
  intros Hw. unfold animate. rewrite Hw. simpl.
  rewrite <- !app_assoc. done.
Qed.

Lemma animate_worldRef solve time s : worldRef (animate solve time s) = worldRef s.
Proof. unfold animate. destruct (worldRef s) eqn:E; simpl; done. Qed.

(** The store after a frame: [world.step] on the store that the frame finds,
    with the step of line 86, and [applyForces] on the result. *)
Lemma animate_heap solve time s w :
  worldRef s = Some w ->
  heap (animate solve time s)
  = applyForces (closure s) (fst (mousePositionRef s)) (snd (mousePositionRef s))
      (bodiesRef s) (worldStep solve (deltaTime (prevTimeRef s) time) w (heap s)).
Proof. intros Hw. unfold animate. by rewrite Hw. Qed.

Lemma animate_refs solve time s w :
  worldRef s = Some w ->
  prevTimeRef (animate solve time s) = time
  /\ bodiesRef (animate solve time s) = bodiesRef s
  /\ mousePositionRef (animate solve time s) = mousePositionRef s
  /\ closure (animate solve time s) = closure s
  /\ state (animate solve time s) = state s.
Proof. intros Hw. unfold animate. by rewrite Hw. Qed.



Lemma mount_state (p : Params T) W H initPos :
  state (mount W H initPos (fresh p)) = p
  /\ prevTimeRef (mount W H initPos (fresh p)) = ofZ 0.
Proof. rewrite mount_fresh. unfold createBoundaries. simpl. done. Qed.

(** Only a frame writes [prevTimeRef]. *)
Lemma handle_prevTime solve i s :
  isFrame i = false -> prevTimeRef (handle solve i s) = prevTimeRef s.
Proof.
  intros Hi. destruct i; try discriminate Hi; simpl; try done.
  unfold handleResize. destruct (cameraRef s), (rendererRef s); try done.
  simpl. destruct (worldRef s); [|done]. unfold createBoundaries. simpl. done.
Qed.

Lemma run_prevTime solve (inputs : list (Input T)) s :
  Forall (fun i => isFrame i = false) inputs ->
  prevTimeRef (run solve inputs s) = prevTimeRef s.
Proof.
  induction inputs as [|i inputs IH] using rev_ind; intros Hall; [done|].
  apply Forall_app in Hall as [Hall Hi]. apply Forall_cons in Hi as [Hi _].
  rewrite run_snoc. rewrite handle_prevTime; [by apply IH | exact Hi].
Qed.

End Lifecycle.

(** ** Meshes follow bodies *)

Section Alignment.

Context {T : Type} `{NT : Number T}.
Implicit Types (h : Heap T) (w : World T) (s : Sim T).






Lemma still_meshes h h' (rs : list nat) :
  still h h' -> meshOf <$> derefAll h' rs = meshOf <$> derefAll h rs.
Proof.
  intros [Hl Hs]. induction rs as [|r rs IH]; [done|].
  rewrite !derefAll_cons. destruct (h !! r) as [b|] eqn:Hb.
  - destruct (Hs r b Hb) as (b' & -> & _ & Hpos & Hq).
    rewrite !fmap_cons, IH. unfold meshOf. by rewrite Hpos, Hq.
  - apply lookup_ge_None in Hb. rewrite lookup_ge_None_2 by lia. done.
Qed.

(** After a frame the meshes are the images of the bodies as the frame
    leaves them. *)
Lemma animate_meshes solve p time s :
  wf p s ->
  particlesRef (animate solve time s)
  = meshOf <$> derefAll (heap (animate solve time s)) (bodiesRef s).
Proof.
  intros Hwf0. pose proof (animate_wf solve p time _ Hwf0) as Hwf.
  destruct Hwf as [_ _ _ Hp Hb Hm].
  destruct Hwf0 as [_ (w & Hw & _) _ _ Hb0 Hm0].
  destruct (animate_refs solve time s w Hw) as (_ & Eb & _).
  rewrite Eb in Hp.
  assert (Hvalid : Forall (fun r => is_Some (heap (animate solve time s) !! r)) (bodiesRef s)).
  { eapply Forall_impl; [exact Hp|]. simpl. intros r (b & -> & _). eauto. }
  apply list_eq. intros i.
  rewrite list_lookup_fmap, (derefAll_lookup _ _ Hvalid).
  revert Hvalid. unfold animate. rewrite Hw. simpl.
  set (h4 := applyForces _ _ _ _ _).
  intros Hvalid. rewrite list_lookup_imap.
  destruct (bodiesRef s !! i) as [r|] eqn:Hr; simpl.
  - destruct (lookup_lt_is_Some_2 (particlesRef s) i) as [mesh ->].
    { apply lookup_lt_Some in Hr. lia. }
    simpl. rewrite Forall_forall in Hvalid.
    destruct (Hvalid r) as [b Hb']; [by eapply list_elem_of_lookup_2|].
    by rewrite Hb'.
  - apply lookup_ge_None in Hr. rewrite lookup_ge_None_2 by lia. done.
Qed.

End Alignment.

(** ** The frame loop, the rebuild and the lifecycle *)

Section Claims.

Context {T : Type} `{NT : Number T}.
Implicit Types (h : Heap T) (w : World T) (s : Sim T).

(** C2, amended.  When the distance of a pair is below [2 x radius] or above
    [attractionRadius] the pair loop computes no force and leaves the store
    as it is, in every arithmetic. *)
Theorem pair_out_of_range_no_force (p : Params T) (A B : Body T) :
  let d := dist (position A) (position B) in
  (d <? particleRadius p * ofZ 2)%num = true \/ (attractionRadius p <? d)%num = true ->
  pairForce p A B = None
  /\ forall h a b, h !! a = Some A -> h !! b = Some B -> pairStep p a b h = h.
Proof.
  intros d Hd.
  assert (Hf : pairForce p A B = None).
  { unfold pairForce. change (nsqrt _) with d.
    destruct Hd as [-> | ->]; [done|]. by rewrite orb_true_r. }
  split; [done|]. intros h a b HA HB. unfold pairStep. by rewrite HA, HB, Hf.
Qed.

(** C5, amended.  In every state that the mounted component reaches, a frame
    runs [world.step] first, on the store as the frame finds it, and the
    force model on what the step leaves; the meshes then show the bodies
    where the step has put them.  The step hands the solver the bodies with the
    forces that were pending, gravity added, and leaves no force on any
    particle; so the forces in the store after frame N are those that the
    force model of frame N computed, and the solver of frame N+1 is the
    first to be handed them. *)
Theorem step_precedes_force_model solve (p : Params T) W H initPos inputs (t1 t2 : T) :
  let s := run solve inputs (mount W H initPos (fresh p)) in
  let s1 := animate solve t1 s in
  let s2 := animate solve t2 s1 in
  let mx := fst (mousePositionRef s) in
  let my := snd (mousePositionRef s) in
  exists w,
    worldRef s = Some w
    /\ heap s1 = applyForces p mx my (bodiesRef s)
                   (worldStep solve (deltaTime (prevTimeRef s) t1) w (heap s))
    /\ (forall dt h,
          worldStep solve dt w h
          = let pending := addGravity w h in
            clearForces w
              (writeBack (bodies w) (solve dt w (derefAll pending (bodies w))) pending))
    /\ Forall (fun r => exists b,
                 worldStep solve (deltaTime (prevTimeRef s) t1) w (heap s) !! r = Some b
                 /\ force b = vzero /\ torque b = vzero)
              (bodiesRef s)
    /\ particlesRef s1 = meshOf <$> derefAll (heap s1) (bodiesRef s)
    /\ particlesRef s1
       = meshOf <$> derefAll (worldStep solve (deltaTime (prevTimeRef s) t1) w (heap s))
                             (bodiesRef s)
    /\ heap s2 = applyForces p mx my (bodiesRef s)
                   (worldStep solve (deltaTime t1 t2) w (heap s1))
    /\ Forall (fun r => exists b1,
                 heap s1 !! r = Some b1
                 /\ addGravity w (heap s1) !! r = Some (addGravityTo (gravity w) b1))
              (bodiesRef s).
Proof.
  intros s s1 s2 mx my.
  pose proof (run_wf solve p W H initPos inputs) as Hwf. fold s in Hwf.
  pose proof (animate_wf solve p t1 s Hwf) as Hwf1. fold s1 in Hwf1.
  pose proof Hwf as [Hc (w & Hw & _ & Hnd & Hlt & Hin) _ _ _ _].
  destruct (animate_refs solve t1 s w Hw) as (Ht & Eb & Em & Ec & _).
  fold s1 in Ht, Eb, Em, Ec.
  assert (Hw1 : worldRef s1 = Some w) by (unfold s1; by rewrite animate_worldRef).
  exists w. split; [done|]. split.
  { unfold s1. rewrite (animate_heap solve t1 s w Hw). by rewrite Hc. }
  split; [done|]. split.
  { apply Forall_forall. intros r Hr.
    rewrite Forall_forall in Hin. rewrite Forall_forall in Hlt.
    destruct (worldStep_clears solve (deltaTime (prevTimeRef s) t1) w (heap s) r)
      as (b & Hb & Hf & Htq); [done | by apply Hin | by apply Hlt, Hin |].
    by exists b. }
  split; [by apply (animate_meshes solve p)|]. split.
  { unfold s1. rewrite (animate_meshes solve p t1 s Hwf).
    rewrite (animate_heap solve t1 s w Hw). apply still_meshes, still_applyForces. }
  split.
  { unfold s2. rewrite (animate_heap solve t2 s1 w Hw1).
    by rewrite Ht, Eb, Em, Ec, Hc. }
  destruct Hwf1 as [_ _ _ Hp1 _ _]. rewrite Eb in Hp1.
  apply Forall_forall. intros r Hr.
  rewrite Forall_forall in Hp1. destruct (Hp1 r Hr) as (b1 & Hb1 & _).
  rewrite Forall_forall in Hin. specialize (Hin r Hr).
  exists b1. split; [done|].
  unfold addGravity. by rewrite foldl_alter_in, Hb1.
Qed.

Lemma isResize_count (inputs : list (Input T)) i :
  resizes (inputs ++ [i]) = (if isResize i then S (resizes inputs) else resizes inputs).
Proof.
  unfold resizes. rewrite List.filter_app, length_app. simpl.
  destruct (isResize i); simpl; lia.
Qed.

(** On a mounted component a call of [createBoundaries] registers one
    particle-boundary rule, unless there is no particle. *)
Lemma registered_wf p s :
  wf p s ->
  List.filter isParticleBoundary (registered s)
  = if Nat.eqb (numParticles p) 0 then [] else registered s.
Proof.
  intros [_ _ _ Hp Hb _]. unfold registered.
  destruct (bodiesRef s) as [|r0 rest].
  - simpl in Hb. rewrite <- Hb. done.
  - simpl in Hb. rewrite <- Hb. simpl.
    apply Forall_cons in Hp as [(b & Hb0 & Hi) _]. rewrite Hb0. simpl.
    assert (material b = Some particleMaterial1) as -> by (by inversion Hi).
    done.
Qed.

Lemma registered_length p s :
  wf p s -> length (registered s) = if Nat.eqb (numParticles p) 0 then 0 else 1.
Proof.
  intros [_ _ _ Hp Hb _]. unfold registered.
  destruct (bodiesRef s) as [|r0 rest].
  - simpl in Hb. rewrite <- Hb. done.
  - simpl in Hb. rewrite <- Hb. simpl.
    apply Forall_cons in Hp as [(b & Hb0 & Hi) _]. rewrite Hb0. simpl.
    assert (material b = Some particleMaterial1) as -> by (by inversion Hi).
    done.
Qed.

Lemma registered_boundaryRule s : Forall boundaryRule (registered s).
Proof.
  unfold registered. destruct (bodiesRef s) as [|r0 ?]; [constructor|].
  destruct (h0 ← heap s !! r0; material h0); repeat constructor.
Qed.

Lemma mount_rules (p : Params T) W H initPos :
  exists w, worldRef (mount W H initPos (fresh p)) = Some w
    /\ particleBoundaryRules w = (if Nat.eqb (numParticles p) 0 then 0 else 1)
    /\ Forall boundaryRule (contactmaterials w).
Proof.
  rewrite mount_fresh.
  erewrite createBoundaries_spec; [|simpl; reflexivity|].
  2:{ simpl. rewrite length_fmap, length_seq. apply Forall_forall.
      intros r Hr. apply elem_of_seq in Hr. lia. }
  simpl. eexists. split; [done|]. split.
  - unfold particleBoundaryRules, registered. simpl.
    destruct (numParticles p); done.
  - simpl. constructor; [|apply registered_boundaryRule].
    intros Hpb. discriminate Hpb.
Qed.

(** C8, amended.  The mounted component holds one particle-boundary contact
    material, of friction 0 and restitution 0.5, for the initial build and
    one more for every resize it has handled; none when it has no particle. *)
Theorem contact_rule_per_rebuild solve (p : Params T) W H initPos inputs :
  let s := run solve inputs (mount W H initPos (fresh p)) in
  exists w, worldRef s = Some w
    /\ particleBoundaryRules w
       = (if Nat.eqb (numParticles p) 0 then 0 else S (resizes inputs))
    /\ Forall boundaryRule (contactmaterials w).
Proof.
  simpl. induction inputs as [|i inputs IH] using rev_ind.
  - apply mount_rules.
  - rewrite run_snoc, isResize_count.
    pose proof (run_wf solve p W H initPos inputs) as Hwf.
    set (s := run solve inputs (mount W H initPos (fresh p))) in *.
    destruct IH as (w & Hw & Hc & Hok).
    destruct i; simpl; try (exists w; split; [done|done]).
    + exists w. split; [by rewrite animate_worldRef|done].
    + rewrite (handleResize_spec p _ _ s w) by done. simpl.
      eexists. split; [done|]. split.
      * unfold particleBoundaryRules in *. simpl.
        rewrite List.filter_app, length_app, Hc, (registered_wf p) by done.
        pose proof (registered_length p s Hwf) as Hl.
        destruct (Nat.eqb (numParticles p) 0); simpl; [done|].
        rewrite Hl. lia.
      * simpl. apply Forall_app. split; [done|apply registered_boundaryRule].
Qed.


Lemma filter_none {A} (P : A -> Prop) `{!forall x, Decision (P x)} (l : list A) :
  Forall (fun x => ~ P x) l -> filter P l = [].
Proof.
  induction 1 as [|x l Hx _ IH]; [done|]. by rewrite filter_cons_False.
Qed.

Lemma filter_all {A} (P : A -> Prop) `{!forall x, Decision (P x)} (l : list A) :
  Forall P l -> filter P l = l.
Proof.
  induction 1 as [|x l Hx _ IH]; [done|]. rewrite filter_cons_True by done.
  by rewrite IH.
Qed.

Lemma derefAll_app_old h (l : list (Body T)) (rs : list nat) :
  Forall (fun r => r < length h) rs -> derefAll (h ++ l) rs = derefAll h rs.
Proof.
  induction 1 as [|r rs Hr _ IH]; [done|].
  rewrite !derefAll_cons, IH. by rewrite lookup_app_l.
Qed.

Lemma derefAll_app_new (l : list (Body T)) : forall h,
  derefAll (h ++ l) (seq (length h) (length l)) = l.
Proof.
  induction l as [|x l IH]; intros h; [done|].
  cbn [length seq]. rewrite derefAll_cons.
  rewrite list_lookup_middle by done. f_equal.
  specialize (IH (h ++ [x])). rewrite <- app_assoc in IH. simpl in IH.
  rewrite length_app in IH. simpl in IH.
  by replace (length h + 1) with (S (length h)) in IH by lia.
Qed.

(** After a resize the bodies of the world that are not particles are the four
    new walls. *)
Lemma boundaries_handleResize p W H s :
  wf p s ->
  boundaries (handleResize W H s)
    = boundaryWalls (boundaryMaterialAt (nextMaterialId s)) W H.
Proof.
  intros Hwf. pose proof Hwf as [_ (w & Hw & _ & _ & Hlt & Hin) _ Hp _ _].
  rewrite (handleResize_spec p W H s w) by done.
  unfold boundaries. simpl. rewrite filter_app.
  rewrite filter_none, filter_all.
  - simpl. apply (derefAll_app_new (boundaryWalls _ W H) (heap s)).
  - apply Forall_forall. intros r Hr Hr'. apply (elem_of_seq _ 4) in Hr.
    rewrite Forall_forall in Hp. destruct (Hp r Hr') as (b & Hb & _).
    apply lookup_lt_Some in Hb. lia.
  - apply Forall_forall. intros r Hr. apply list_elem_of_filter in Hr as [Hr _].
    tauto.
Qed.

Lemma particles_handleResize p W H s :
  wf p s ->
  bodiesRef (handleResize W H s) = bodiesRef s
  /\ derefAll (heap (handleResize W H s)) (bodiesRef s) = derefAll (heap s) (bodiesRef s).
Proof.
  intros Hwf. pose proof Hwf as [_ (w & Hw & _ & _ & Hlt & Hin) _ Hp _ _].
  rewrite (handleResize_spec p W H s w) by done. simpl. split; [done|].
  apply derefAll_app_old. eapply Forall_impl; [exact Hp|]. simpl.
  intros r (b & Hb & _). by apply lookup_lt_Some in Hb.
Qed.

End Claims.

Section RealTheorems.

Local Open Scope R_scope.

Lemma R_le_true a b : a <= b -> R_le a b = true.
Proof. intros H. unfold R_le. by destruct (Rle_dec a b). Qed.

Lemma R_le_false a b : b < a -> R_le a b = false.
Proof. intros H. unfold R_le. destruct (Rle_dec a b); [lra|done]. Qed.

Lemma rectangle_walls (m : Material R) (W H : R) :
  rectangle <$> boundaryWalls m W H = Some <$> enclosure W H.
Proof.
  unfold boundaryWalls, enclosure, rectangle, wallBody, boundaryThickness. simpl.
  repeat f_equal; lra.
Qed.

Lemma walls_static (m : Material R) (W H : R) :
  Forall (fun b => mass b = 0 /\ btype b = STATIC) (boundaryWalls m W H).
Proof.
  unfold boundaryWalls, wallBody, newBody. simpl.
  rewrite R_le_true by lra. repeat constructor.
Qed.

(** C7.  A resize keeps the particles of [world.bodies] in order, drops every
    other body and adds four new static walls of mass 0 that form the
    enclosure of the viewport with thickness 50; a second resize to the same
    size gives the same four rectangles; the particle array and the particle
    bodies are untouched. *)
Theorem boundary_rebuild solve (p : Params R) (W0 H0 : R) initPos inputs (W H : R) :
  let s := run solve inputs (mount W0 H0 initPos (fresh p)) in
  let s1 := handleResize W H s in
  let s2 := handleResize W H s1 in
  exists w w1,
    worldRef s = Some w /\ worldRef s1 = Some w1
    /\ bodies w1 = filter (fun r => r ∈ bodiesRef s) (bodies w) ++ seq (length (heap s)) 4
    /\ heap s1 = heap s ++ boundaries s1
    /\ rectangle <$> boundaries s1 = Some <$> enclosure W H
    /\ Forall (fun b => mass b = 0 /\ btype b = STATIC) (boundaries s1)
    /\ rectangle <$> boundaries s2 = Some <$> enclosure W H
    /\ bodiesRef s1 = bodiesRef s
    /\ length (bodiesRef s1) = numParticles p
    /\ derefAll (heap s1) (bodiesRef s1) = derefAll (heap s) (bodiesRef s)
    /\ derefAll (heap s2) (bodiesRef s2) = derefAll (heap s) (bodiesRef s).
Proof.
  intros s s1 s2.
  pose proof (run_wf solve p W0 H0 initPos inputs) as Hwf. fold s in Hwf.
  assert (Hwf1 : wf p s1) by by apply handleResize_wf.
  pose proof (boundaries_handleResize p W H s Hwf) as Hb1. fold s1 in Hb1.
  pose proof (boundaries_handleResize p W H s1 Hwf1) as Hb2. fold s2 in Hb2.
  pose proof (particles_handleResize p W H s Hwf) as [Hr1 Hd1]. fold s1 in Hr1, Hd1.
  pose proof (particles_handleResize p W H s1 Hwf1) as [Hr2 Hd2]. fold s2 in Hr2, Hd2.
  pose proof Hwf as [_ (w & Hw & _) _ _ Hlen _].
  exists w. eexists.
  split; [done|]. split.
  { unfold s1. rewrite (handleResize_spec p W H s w) by done. simpl. reflexivity. }
  simpl. split; [done|]. split.
  { rewrite Hb1. unfold s1. by rewrite (handleResize_spec p W H s w) by done. }
  rewrite Hb1, Hb2. split; [apply rectangle_walls|].
  split; [apply walls_static|]. split; [apply rectangle_walls|].
  split; [done|]. split; [congruence|]. split; [congruence|].
  rewrite Hr2, Hd2. congruence.
Qed.

Lemma particle_real (p : Params R) (b : Body R) :
  identity b = identity (particleBody p particleMaterial1 0 0) ->
  mass b = 1 /\ btype b = DYNAMIC.
Proof.
  unfold identity, particleBody, newBody. simpl.
  rewrite R_le_false by lra. intros Hi. by inversion Hi.
Qed.

(** C10.  In every state that the mounted component reaches the gravity of
    the world is [(0, -1000, 0)], of magnitude 1000, and a frame leaves it
    so.  The physics step of every frame hands the solver the bodies of the
    world with gravity added to the force that was pending: every particle,
    of mass 1 and dynamic, with its force lowered by 1000 in the vertical
    component and nothing else changed. *)
Theorem gravity_constant solve (p : Params R) (W H : R) initPos inputs (time : R) :
  let s := run solve inputs (mount W H initPos (fresh p)) in
  let s' := animate solve time s in
  let dt := deltaTime (prevTimeRef s) time in
  exists w,
    worldRef s = Some w /\ worldRef s' = Some w
    /\ gravity w = mkVec3 0 (-1000) 0
    /\ norm (gravity w) = 1000
    /\ let pending := addGravity w (heap s) in
       heap s' = applyForces p (fst (mousePositionRef s)) (snd (mousePositionRef s))
                   (bodiesRef s)
                   (clearForces w
                      (writeBack (bodies w)
                         (solve dt w (derefAll pending (bodies w))) pending))
       /\ Forall (fun r => r ∈ bodies w /\ exists b b',
                    heap s !! r = Some b /\ pending !! r = Some b'
                    /\ mass b = 1 /\ btype b = DYNAMIC
                    /\ force b' = mkVec3 (vx (force b)) (vy (force b) - 1000) (vz (force b))
                    /\ unforced b' = unforced b /\ torque b' = torque b)
                 (bodiesRef s).
Proof.
  intros s s' dt. pose proof (run_wf solve p W H initPos inputs) as Hwf. fold s in Hwf.
  destruct Hwf as [Hc (w & Hw & Hg & Hnd & Hlt & Hin) _ Hp _ _].
  exists w. split; [done|]. split; [unfold s'; by rewrite animate_worldRef|].
  split; [done|]. split.
  { rewrite Hg. unfold norm. simpl. apply sqrt_lem_1; lra. }
  simpl. split.
  { unfold s'. rewrite (animate_heap solve time s w Hw), Hc. reflexivity. }
  apply Forall_forall. intros r Hr.
  rewrite Forall_forall in Hp. destruct (Hp r Hr) as (b & Hb & Hi).
  rewrite Forall_forall in Hin. specialize (Hin r Hr). split; [done|].
  apply particle_real in Hi as [Hm Hd].
  exists b, (addGravityTo (gravity w) b).
  split; [done|]. split.
  { unfold addGravity. rewrite foldl_alter_in, Hb; done. }
  split; [done|]. split; [done|].
  unfold addGravityTo. rewrite Hd, Hg, Hm. simpl.
  split; [f_equal; lra|]. done.
Qed.

(** C6.  In every state that the mounted component reaches, the frame hands
    [world.step], and the step hands the solver, the value [dt] of line 86
    and records its timestamp.  With a previous timestamp [dt] is
    [min (elapsed seconds, 0.1)], so 0.1 when 5 seconds have elapsed; in the
    first frame, no frame having run before, it is 0.016; it never exceeds
    0.1. *)
Theorem delta_time_clamped solve (p : Params R) (W H : R) initPos inputs (time : R) :
  let s := run solve inputs (mount W H initPos (fresh p)) in
  let s' := animate solve time s in
  let dt := deltaTime (prevTimeRef s) time in
  exists w,
    worldRef s = Some w
    /\ heap s' = applyForces p (fst (mousePositionRef s)) (snd (mousePositionRef s))
                   (bodiesRef s) (worldStep solve dt w (heap s))
    /\ worldStep solve dt w (heap s)
       = (let pending := addGravity w (heap s) in
          clearForces w
            (writeBack (bodies w) (solve dt w (derefAll pending (bodies w))) pending))
    /\ prevTimeRef s' = time
    /\ (prevTimeRef s <> 0 ->
          dt = Rmin ((time - prevTimeRef s) / 1000) 0.1
          /\ ((time - prevTimeRef s) / 1000 = 5 -> dt = 0.1))
    /\ (Forall (fun i => isFrame i = false) inputs -> prevTimeRef s = 0 /\ dt = 0.016)
    /\ dt <= 0.1.
Proof.
  intros s s' dt. pose proof (run_wf solve p W H initPos inputs) as Hwf. fold s in Hwf.
  destruct Hwf as [Hc (w & Hw & _) _ _ _ _].
  destruct (animate_refs solve time s w Hw) as (Ht & _). fold s' in Ht.
  exists w. split; [done|]. split.
  { unfold s'. by rewrite (animate_heap solve time s w Hw), Hc. }
  split; [reflexivity|]. split; [done|]. unfold dt. split; [|split].
  - intros Hprev. rewrite deltaTime_history by done.
    replace (1 / 10) with 0.1 by lra. split; [done|].
    intros ->. unfold Rmin. destruct (Rle_dec 5 0.1); lra.
  - intros Hall.
    assert (E : prevTimeRef s = 0).
    { unfold s. rewrite run_prevTime by done.
      by destruct (mount_state p W H initPos) as [_ ->]. }
    split; [done|]. rewrite E, deltaTime_first. lra.
  - destruct (Req_dec_T (prevTimeRef s) 0) as [->|Hprev].
    + rewrite deltaTime_first. lra.
    + rewrite deltaTime_history by done.
      etransitivity; [apply Rmin_r | lra].
Qed.

End RealTheorems.

(** ** Concrete instances *)

Section RealWitnesses.

Local Open Scope R_scope.

Lemma dist_on_axis (x1 x2 : R) :
  x1 <= x2 -> dist (mkVec3 x1 0 0) (mkVec3 x2 0 0) = x2 - x1.
Proof.
  intros H. unfold dist. simpl. apply sqrt_lem_1; [nra | lra | ring].
Qed.


(** C6 for two particles: the first frame, and a frame 5 seconds after a
    frame at 1000 ms. *)
Lemma delta_time_witness :
  let solve := fun (_ : R) (_ : World R) (_ : list (Body R)) => @nil (Motion R) in
  let s0 := mount 800 600 (fun _ => (0, 0)) (fresh (mkParams 2 7 80 150 25000 30000)) in
  deltaTime (prevTimeRef (run solve [] s0)) 16 = 0.016
  /\ deltaTime (prevTimeRef (run solve [Frame 1000] s0)) 6000 = 0.1.
Proof.
  intros solve s0.
  pose proof (delta_time_clamped solve (mkParams 2 7 80 150 25000 30000) 800 600
                (fun _ => (0, 0)) [] 16) as (w0 & _ & _ & _ & _ & _ & Hfirst & _).
  pose proof (delta_time_clamped solve (mkParams 2 7 80 150 25000 30000) 800 600
                (fun _ => (0, 0)) [] 1000) as (w1 & _ & _ & _ & Ht & _).
  pose proof (delta_time_clamped solve (mkParams 2 7 80 150 25000 30000) 800 600
                (fun _ => (0, 0)) [Frame 1000] 6000) as (w2 & _ & _ & _ & _ & Hhist & _).
  fold s0 in Hfirst, Ht, Hhist.
  rewrite <- (run_frame solve [] 1000 s0) in Ht.
  change ([] ++ [Frame 1000]) with [Frame (T:=R) 1000] in Ht.
  set (s1 := run solve [Frame 1000] s0) in *.
  set (s00 := run solve [] s0) in *.
  clearbody s1 s00. clear s0.
  split; [apply Hfirst; constructor|].
  destruct Hhist as [_ Hclamp]; [rewrite Ht; lra|].
  apply Hclamp. rewrite Ht. lra.
Defined.

End RealWitnesses.

Section Binary64.

Local Open Scope float_scope.

(** Scenario 1 of the specification, as the code computes it. *)
Example scenario1_forces :
  particleForces (animate restSolver 16 scenario1)
    = [mkVec3 2.5 0 0; mkVec3 (-2.5) 0 0].
Proof. vm_compute. reflexivity. Qed.

(** Scenario 2 of the specification: half of [pushStrength]. *)
Example scenario2_force :
  pushForce twoParticles 0 0 (particleAt 40) = Some (mkVec3 15000 0 0).
Proof. vm_compute. reflexivity. Qed.

(** Scenario 3 of the specification: after the resize to 1200 x 800 the world
    holds four walls, placed by the new half extents and half the thickness. *)
Example scenario3_walls :
  (fun b => (position b, shapes b)) <$> boundaries (handleResize 1200 800 scenario1)
    = [ (mkVec3 0 425 0, [Box (mkVec3 600 25 25)]);
        (mkVec3 0 (-425) 0, [Box (mkVec3 600 25 25)]);
        (mkVec3 (-625) 0 0, [Box (mkVec3 25 400 25)]);
        (mkVec3 625 0 0, [Box (mkVec3 25 400 25)]) ].
Proof. vm_compute. reflexivity. Qed.

(** The ids of the materials: 0 for the default material of the world, 1 for
    the particles, 2 for the walls of the mount and 3 for those of the first
    resize. *)
Example material_ids :
  let ids := fun s : Sim float =>
    (nextMaterialId s,
     (fun w => (mat_id (defaultMaterial w),
                (fun cm => (mat_id (cm_m1 cm), mat_id (cm_m2 cm))) <$> contactmaterials w))
       <$> worldRef s) in
  ids scenario1 = (3%nat, Some (0%nat, [(1, 1); (1, 2)]%nat))
  /\ ids (handleResize 1200 800 scenario1)
     = (4%nat, Some (0%nat, [(1, 1); (1, 2); (1, 3)]%nat)).
Proof. split; vm_compute; reflexivity. Qed.

(** C2 as stated fails at distance [2 x radius]: two particles 14 apart,
    radius 7, attract each other with 25000 / 196. *)
Lemma touching_pair_attracts :
  (dist (position (particleAt 0)) (position (particleAt 14))
     <=? particleRadius twoParticles * 2)%num = true
  /\ pairForce twoParticles (particleAt 0) (particleAt 14)
     = Some (mkVec3 127.55102040816327 0 0)
  /\ particleForces (animate restSolver 16 touching)
     = [mkVec3 127.55102040816327 0 0; mkVec3 (-127.55102040816327) 0 0].
Proof. repeat split; vm_compute; reflexivity. Qed.

(** C2, amended, at two particles 10 apart. *)
Lemma pair_out_of_range_witness :
  pairForce twoParticles (particleAt 0) (particleAt 10) = None
  /\ pairStep twoParticles 0 1 [particleAt 0; particleAt 10] = [particleAt 0; particleAt 10].
Proof.
  destruct (pair_out_of_range_no_force twoParticles (particleAt 0) (particleAt 10))
    as [Hnone Hstep].
  - left. vm_compute. reflexivity.
  - split; [done|]. by apply Hstep.
Defined.

(** C8 as stated fails: one resize registers a second rule. *)
Lemma second_rule_after_resize :
  particleBoundaryRules <$> worldRef scenario1 = Some 1%nat
  /\ particleBoundaryRules <$> worldRef (handleResize 1200 800 scenario1) = Some 2%nat.
Proof. split; vm_compute; reflexivity. Qed.

(** C5 as stated fails.  With a solver that reports the force it is handed,
    the step of the first frame of [scenario1] sees gravity alone, although
    the force model of that frame computes the attraction of 2.5; the step of
    the second frame is the one that sees it. *)
Lemma step_runs_before_force_model :
  let s1 := animate spySolver 16 scenario1 in
  let s2 := animate spySolver 32 s1 in
  velocity <$> derefAll (heap s1) (bodiesRef s1) = [mkVec3 0 (-1000) 0; mkVec3 0 (-1000) 0]
  /\ particleForces s1 = [mkVec3 2.5 0 0; mkVec3 (-2.5) 0 0]
  /\ velocity <$> derefAll (heap s2) (bodiesRef s2)
     = [mkVec3 2.5 (-1000) 0; mkVec3 (-2.5) (-1000) 0].
Proof. repeat split; vm_compute; reflexivity. Qed.

(** C4 as stated fails in binary64: at the distances [1 + 2^-52] and
    [1 + 2^-51], both within [(1, pushRadius)], the code computes the same
    force. *)
Lemma equal_push_at_different_distances :
  let P1 := particleAt 1.0000000000000002 in
  let P2 := particleAt 1.0000000000000004 in
  let d1 := dist (pointer 0 0) (position P1) in
  let d2 := dist (pointer 0 0) (position P2) in
  (1 <? d1) = true /\ (d1 <? d2) = true /\ (d2 <? pushRadius twoParticles) = true
  /\ pushForce twoParticles 0 0 P1 = Some (mkVec3 29625 0 0)
  /\ pushForce twoParticles 0 0 P2 = Some (mkVec3 29625 0 0).
Proof. repeat split; vm_compute; reflexivity. Qed.

(** The guard of the push reads the computed distance: for a particle at
    [(1, 1e-10)] and the pointer at the origin it is 1, and nothing is
    applied. *)
Example push_guard_at_computed_distance :
  let P := particleBody twoParticles particleMaterial1 1 1e-10 in
  dist (pointer 0 0) (position P) = 1
  /\ pushForce twoParticles 0 0 P = None.
Proof. split; vm_compute; reflexivity. Qed.

(** Line 86 in binary64: 5 seconds after a frame, 16 ms after a frame, and
    with no frame before. *)
Example delta_time_binary64 :
  deltaTime 1000 6000 = 0.1 /\ deltaTime 1000 1016 = 0.016 /\ deltaTime 0 16 = 0.016.
Proof. repeat split; vm_compute; reflexivity. Qed.


(** C3 in binary64, for two particles at distances 40 and 200 from the
    pointer, and over the real numbers at distances 40 and 80 for the default
    parameters. *)
Lemma pointer_repulsion_witness :
  let h := [particleAt 40; particleAt 200] in
  let afterPush := foldl (pushBody twoParticles 0 0) h [0; 1]%nat in
  force <$> afterPush !! 0%nat = Some (mkVec3 15000 0 0)
  /\ afterPush !! 1%nat = Some (particleAt 200)
  /\ (exists f,
        pushForce defaults 0 0 (realParticle 40) = Some f
        /\ norm f = 0.5 * 30000
        /\ pushForce defaults 0 0 (realParticle 80) = None)%R.
Proof.
  intros h afterPush.
  destruct pointer_repulsion_law as [Hgen Hreal].
  assert (Hnd : NoDup [0; 1]%nat) by apply (NoDup_seq 0 2).
  assert (H0 : 0%nat ∈ [0; 1]%nat) by (apply elem_of_cons; by left).
  assert (H1 : 1%nat ∈ [0; 1]%nat) by (apply elem_of_cons; right; apply elem_of_cons; by left).
  destruct (Hgen float float_Number twoParticles 0 0 [0; 1]%nat h 0%nat (particleAt 40)
              Hnd H0 eq_refl eq_refl) as (_ & Hin & _).
  destruct (Hgen float float_Number twoParticles 0 0 [0; 1]%nat h 1%nat (particleAt 200)
              Hnd H1 eq_refl eq_refl) as (_ & _ & Hout).
  destruct Hin as (f & _ & Hf & Hacc); [vm_compute; reflexivity|].
  destruct Hout as [_ Hsame]; [vm_compute; reflexivity|].
  split. { fold afterPush in Hacc. rewrite Hacc, Hf. vm_compute. reflexivity. }
  split; [exact Hsame|].
  assert (Hd : dist (pointer 0%R 0%R) (position (realParticle 40)) = 40%R).
  { etransitivity; [apply (dist_on_axis 0 40); lra | lra]. }
  assert (Hd' : dist (pointer 0%R 0%R) (position (realParticle 80)) = 80%R).
  { etransitivity; [apply (dist_on_axis 0 80); lra | lra]. }
  destruct (Hreal defaults 0%R 0%R (realParticle 40)) as [Hin' _].
  destruct Hin' as (f' & Hf' & _ & _ & Hs).
  { rewrite Hd. simpl. lra. }
  destruct (Hreal defaults 0%R 0%R (realParticle 80)) as [_ Hnone].
  exists f'. split; [done|]. split.
  - apply Hs; simpl; try done; lra.
  - apply Hnone. right. rewrite Hd'. simpl. lra.
Defined.

(** C4, amended: in binary64 two particles at distances 20 and 40 accumulate
    22500 and 15000; over the real numbers the magnitudes at these distances
    are strictly ordered. *)
Lemma pointer_decreasing_witness :
  let h := [particleAt 20; particleAt 40] in
  let afterPush := foldl (pushBody twoParticles 0 0) h [0; 1]%nat in
  force <$> afterPush !! 0%nat = Some (mkVec3 22500 0 0)
  /\ force <$> afterPush !! 1%nat = Some (mkVec3 15000 0 0)
  /\ (exists f1 f2,
        pushForce defaults 0 0 (realParticle 20) = Some f1
        /\ pushForce defaults 0 0 (realParticle 40) = Some f2
        /\ norm f2 < norm f1)%R.
Proof.
  intros h afterPush.
  destruct pointer_repulsion_strictly_decreasing as [Hgen Hreal].
  assert (Hnd : NoDup [0; 1]%nat) by apply (NoDup_seq 0 2).
  assert (H0 : 0%nat ∈ [0; 1]%nat) by (apply elem_of_cons; by left).
  assert (H1 : 1%nat ∈ [0; 1]%nat) by (apply elem_of_cons; right; apply elem_of_cons; by left).
  destruct (Hgen float float_Number twoParticles 0 0 [0; 1]%nat h 0%nat 1%nat
              (particleAt 20) (particleAt 40) Hnd H0 H1 eq_refl eq_refl eq_refl eq_refl)
    as (_ & _ & _ & Hacc1 & Hacc2); [vm_compute; reflexivity | vm_compute; reflexivity |].
  fold afterPush in Hacc1, Hacc2.
  split. { rewrite Hacc1. vm_compute. reflexivity. }
  split. { rewrite Hacc2. vm_compute. reflexivity. }
  assert (Hd1 : dist (pointer 0%R 0%R) (position (realParticle 20)) = 20%R).
  { etransitivity; [apply (dist_on_axis 0 20); lra | lra]. }
  assert (Hd2 : dist (pointer 0%R 0%R) (position (realParticle 40)) = 40%R).
  { etransitivity; [apply (dist_on_axis 0 40); lra | lra]. }
  destruct (Hreal defaults 0%R 0%R (realParticle 20) (realParticle 40))
    as (f1 & f2 & Hf1 & Hf2 & _ & _ & Hlt).
  - simpl. lra.
  - simpl. lra.
  - rewrite Hd1. lra.
  - rewrite Hd1, Hd2. lra.
  - rewrite Hd2. simpl. lra.
  - by exists f1, f2.
Defined.

End Binary64.

(** * Further properties of the component *)

Section Further.

Context {T : Type} `{NT : Number T}.
Implicit Types (h : Heap T) (w : World T) (s : Sim T).

(** Same store up to the accumulators. *)
Lemma unforced_alter (f : Body T -> Body T) r h :
  (forall b, unforced (f b) = unforced b) ->
  unforced <$> alter f r h = unforced <$> h.
Proof.
  intros Hf. apply list_eq. intros i. rewrite !list_lookup_fmap.
  destruct (decide (r = i)) as [->|Hne].
  - rewrite list_lookup_alter_eq. destruct (h !! i); simpl; [|done]. by rewrite Hf.
  - by rewrite list_lookup_alter_ne.
Qed.

Lemma unforced_applyForce r f rp h : unforced <$> applyForce r f rp h = unforced <$> h.
Proof.
  rewrite applyForce_alter. apply unforced_alter. intros b. by destruct (btype b).
Qed.

Lemma unforced_pushBody p mx my h r : unforced <$> pushBody p mx my h r = unforced <$> h.
Proof.
  unfold pushBody. destruct (h !! r) as [b|]; [|done].
  destruct (pushForce p mx my b); [apply unforced_applyForce | done].
Qed.

Lemma unforced_pairStep p a b h : unforced <$> pairStep p a b h = unforced <$> h.
Proof.
  unfold pairStep. destruct (h !! a) as [A|]; [|done].
  destruct (h !! b) as [B|]; [|done].
  destruct (pairForce p A B); [|done].
  by rewrite !unforced_applyForce.
Qed.

Lemma unforced_foldl {A} (f : Heap T -> A -> Heap T) (l : list A) h :
  (forall h x, unforced <$> f h x = unforced <$> h) ->
  unforced <$> foldl f h l = unforced <$> h.
Proof.
  intros Hf. revert h. induction l as [|x l IH]; intros h; simpl; [done|].
  by rewrite IH, Hf.
Qed.

(** [applyForces] writes accumulators only: with force and torque erased the
    store is what it was, so no body moves, turns, or changes mass, type,
    material, shape or damping, and no body is added or lost. *)
Theorem applyForces_only_accumulates p mx my (bodies : list nat) h :
  unforced <$> applyForces p mx my bodies h = unforced <$> h
  /\ length (applyForces p mx my bodies h) = length h.
Proof.
  assert (E : unforced <$> applyForces p mx my bodies h = unforced <$> h).
  { unfold applyForces. rewrite outerLoop_pairs.
    rewrite unforced_foldl by (intros; apply unforced_pairStep).
    apply unforced_foldl. intros. apply unforced_pushBody. }
  split; [done|]. apply (f_equal length) in E. by rewrite !length_fmap in E.
Qed.

Lemma pushBody_other p mx my h r r' : r <> r' -> pushBody p mx my h r !! r' = h !! r'.
Proof.
  intros Hne. unfold pushBody. destruct (h !! r) as [b|]; [|done].
  destruct (pushForce p mx my b); [by apply applyForce_lookup_ne | done].
Qed.

Lemma pairStep_other p a b h r : r <> a -> r <> b -> pairStep p a b h !! r = h !! r.
Proof.
  intros Ha Hb. unfold pairStep. destruct (h !! a) as [A|]; [|done].
  destruct (h !! b) as [B|]; [|done].
  destruct (pairForce p A B); [|done].
  rewrite !applyForce_lookup_ne by done. done.
Qed.

Lemma pairsOf_elem (l : list nat) a b : (a, b) ∈ pairsOf l -> a ∈ l /\ b ∈ l.
Proof.
  intros (i & j & _ & Hi & Hj)%elem_of_pairsOf.
  split; by eapply list_elem_of_lookup_2.
Qed.

(** [applyForces] leaves a body that is not in the array (a wall, a body of
    another world) exactly as it is. *)
Theorem applyForces_outside_array p mx my (bodies : list nat) h r :
  r ∉ bodies -> applyForces p mx my bodies h !! r = h !! r.
Proof.
  intros Hr. unfold applyForces. rewrite outerLoop_pairs.
  assert (Hpairs : forall (ps : list (nat * nat)) h0,
            Forall (fun ab => fst ab <> r /\ snd ab <> r) ps ->
            foldl (fun h ab => pairStep p (fst ab) (snd ab) h) h0 ps !! r = h0 !! r).
  { induction ps as [|[a b] ps IH]; intros h0 Hall; simpl; [done|].
    apply Forall_cons in Hall as [[Ha Hb] Hall].
    rewrite IH by done. by apply pairStep_other. }
  rewrite Hpairs.
  - clear Hpairs. revert h. induction bodies as [|a bodies IH]; intros h; simpl; [done|].
    apply not_elem_of_cons in Hr as [Hne Hr].
    rewrite IH by done. by apply pushBody_other.
  - apply Forall_forall. intros [a b] Hab. apply pairsOf_elem in Hab as [Ha Hb].
    simpl. split; intros ->; done.
Qed.

Lemma pairsOf_length (l : list nat) :
  2 * length (pairsOf l) = length l * (length l - 1).
Proof.
  induction l as [|a l IH]; simpl; [done|].
  rewrite length_app, length_fmap. destruct l as [|b l]; simpl in *; [done|]. nia.
Qed.

(** The nested loops of [applyForces] run the pair step [n (n - 1) / 2] times
    on an array of [n] bodies: not at all on an empty or one-element array. *)
Theorem pair_count (p : Params T) (bodies : list nat) h :
  exists pairs,
    outerLoop p bodies h = foldl (fun h ab => pairStep p (fst ab) (snd ab) h) h pairs
    /\ 2 * length pairs = length bodies * (length bodies - 1)
    /\ (length bodies <= 1 -> outerLoop p bodies h = h).
Proof.
  exists (pairsOf bodies). split; [apply outerLoop_pairs|].
  split; [apply pairsOf_length|].
  intros Hn. destruct bodies as [|a [|b l]]; simpl in *; [done|done|lia].
Qed.

(** [updateParticlePositions] keeps the number of meshes; mesh [i] takes the
    planar position (with z = 0) and the rotation of body [i]; a mesh without
    a body stays as it is, no mesh is made for a body without one; bodies are
    not touched; doing it twice is doing it once. *)
Theorem updateParticlePositions_sync s :
  let s' := updateParticlePositions s in
  length (particlesRef s') = length (particlesRef s)
  /\ (forall i r body, bodiesRef s !! i = Some r -> heap s !! r = Some body ->
        i < length (particlesRef s) -> particlesRef s' !! i = Some (meshOf body))
  /\ (forall i, length (bodiesRef s) <= i -> particlesRef s' !! i = particlesRef s !! i)
  /\ heap s' = heap s /\ bodiesRef s' = bodiesRef s
  /\ updateParticlePositions s' = s'.
Proof.
  simpl. split; [apply length_imap|]. split; [|split; [|split; [done|split; [done|]]]].
  - intros i r body Hr Hb Hi. unfold updateParticlePositions. simpl.
    rewrite list_lookup_imap.
    destruct (lookup_lt_is_Some_2 (particlesRef s) i Hi) as [mesh ->].
    simpl. rewrite Hr. simpl. by rewrite Hb.
  - intros i Hi. unfold updateParticlePositions. simpl.
    rewrite list_lookup_imap. destruct (particlesRef s !! i); [|done].
    simpl. by rewrite lookup_ge_None_2.
  - unfold updateParticlePositions, set_particles. simpl. f_equal.
    apply list_eq. intros i. rewrite !list_lookup_imap.
    destruct (particlesRef s !! i) as [mesh|]; [|done]. simpl.
    by destruct (bodiesRef s !! i ≫= _).
Qed.

Lemma set_state_set_state q q' s : set_state q (set_state q' s) = set_state q s.
Proof. done. Qed.

Lemma handle_set_state solve i q s :
  isSlider i = false -> handle solve i (set_state q s) = set_state q (handle solve i s).
Proof.
  intros Hi. destruct i; try discriminate Hi; simpl.
  - unfold animate. simpl. by destruct (worldRef s).
  - unfold handleResize. simpl. destruct (cameraRef s), (rendererRef s); try done.
    simpl. destruct (worldRef s); [|done]. unfold createBoundaries. simpl. done.
  - done.
Qed.

Lemma run_closure solve (inputs : list (Input T)) s :
  closure (run solve inputs s) = closure s.
Proof.
  induction inputs as [|i inputs IH] using rev_ind; [done|].
  rewrite run_snoc, <- IH. set (s' := run solve inputs s).
  destruct i; simpl; try done.
  - unfold animate. by destruct (worldRef s').
  - unfold handleResize. destruct (cameraRef s'), (rendererRef s'); try done.
    simpl. destruct (worldRef s'); [|done]. unfold createBoundaries. simpl. done.
Qed.

(** The sliders change the React state and nothing else: store, world,
    meshes, pointer and trace are what they are when the slider inputs are
    left out, and the parameters that the frame loop reads stay those of the
    mount. *)
Theorem sliders_do_not_reach_the_loop solve (inputs : list (Input T)) s :
  closure (run solve inputs s) = closure s
  /\ exists q,
    run solve inputs s
    = set_state q (run solve (List.filter (fun i => negb (isSlider i)) inputs) s).
Proof.
  split; [apply run_closure|].
  induction inputs as [|i inputs IH] using rev_ind.
  - exists (state s). by destruct s.
  - destruct IH as [q IH]. rewrite run_snoc, IH, List.filter_app. simpl.
    destruct (isSlider i) eqn:Hi; simpl.
    + rewrite app_nil_r. destruct i; try discriminate Hi; simpl; eexists; reflexivity.
    + exists q. rewrite run_snoc. by apply handle_set_state.
Qed.

Lemma stable_derefAll h h' (rs : list nat) :
  stable h h' -> identity <$> derefAll h' rs = identity <$> derefAll h rs.
Proof.
  intros [Hl Hs]. induction rs as [|r rs IH]; [done|].
  rewrite !derefAll_cons. destruct (h !! r) as [b|] eqn:Hb.
  - destruct (Hs r b Hb) as (b' & -> & Hi). by rewrite !fmap_cons, IH, Hi.
  - apply lookup_ge_None in Hb. rewrite lookup_ge_None_2 by lia. done.
Qed.

Lemma derefAll_at_end (l : list (Body T)) h k :
  length h = k -> derefAll (h ++ l) (seq k (length l)) = l.
Proof. intros <-. apply derefAll_app_new. Qed.

Lemma mount_walled (p : Params T) W H initPos :
  walled (numParticles p) (W, H) (mount W H initPos (fresh p)).
Proof.
  rewrite mount_fresh.
  erewrite createBoundaries_spec; [|simpl; reflexivity|].
  2:{ simpl. rewrite length_fmap, length_seq. apply Forall_forall.
      intros r Hr. apply elem_of_seq in Hr. lia. }
  set (n := numParticles p).
  eexists _, n, 2. cbn -[derefAll boundaryWalls seq].
  rewrite length_fmap, length_seq. fold n.
  repeat (split; [done|]). f_equal.
  apply (derefAll_at_end (boundaryWalls (boundaryMaterialAt 2) W H)).
  by rewrite length_fmap, length_seq.
Qed.

Lemma animate_walled solve p n size time s :
  wf p s -> walled n size s -> walled n size (animate solve time s).
Proof.
  intros Hwf (w & k & id & Hw & Hr & Hc & Hb & Hbw & Hk & Hid).
  exists w, k, id. unfold animate. rewrite Hw. cbn -[derefAll boundaryWalls seq].
  repeat (split; [done|]).
  rewrite <- Hid. apply stable_derefAll.
  eapply stable_trans; [apply stable_worldStep|].
  apply still_stable, still_applyForces.
Qed.

Lemma handleResize_walled p W H size s :
  wf p s -> walled (numParticles p) size s ->
  walled (numParticles p) (W, H) (handleResize W H s).
Proof.
  intros Hwf (w & k & id & Hw & Hr & Hc & Hb & Hbw & Hk & Hid).
  rewrite (handleResize_spec p W H s w) by done.
  exists (mkWorld (gravity w) (broadphase w)
            (filter (fun r => r ∈ bodiesRef s) (bodies w) ++ seq (length (heap s)) 4)
            (contactmaterials w ++ registered s) (defaultMaterial w)),
         (length (heap s)), (nextMaterialId s).
  cbn -[derefAll boundaryWalls seq].
  split; [done|]. split; [done|]. split; [done|]. split; [done|].
  destruct Hwf as [_ (w' & Hw' & _ & _ & Hlt & _) _ _ _ _].
  assert (w' = w) as -> by congruence.
  split; [|split].
  - f_equal. rewrite Hb, Hbw, filter_app, filter_all, filter_none.
    + by rewrite app_nil_r.
    + apply Forall_forall. intros r Hr1 Hr2.
      apply (elem_of_seq k 4) in Hr1. apply elem_of_seq in Hr2. lia.
    + apply Forall_forall. by intros r Hr1.
  - rewrite Forall_forall in Hlt.
    assert (Hin : k ∈ bodies w).
    { rewrite Hbw. apply elem_of_app. right. apply (elem_of_seq k 4). lia. }
    apply Hlt in Hin. lia.
  - f_equal.
    by apply (derefAll_at_end (boundaryWalls (boundaryMaterialAt (nextMaterialId s)) W H)).
Qed.

Lemma viewport_snoc (size : T * T) (inputs : list (Input T)) i :
  viewport size (inputs ++ [i])
  = match i with Resize w h => (w, h) | _ => viewport size inputs end.
Proof. unfold viewport. by rewrite foldl_app. Qed.

(** Whatever the mounted component has handled, its world holds the particles
    in creation order followed by exactly four other bodies, which have the
    mass, type, material and box of the walls for the size of the last
    resize (of the mount if there was none); camera and renderer are set for
    that size. *)
Theorem four_walls_at_any_time solve (p : Params T) W H initPos inputs :
  let s := run solve inputs (mount W H initPos (fresh p)) in
  walled (numParticles p) (viewport (W, H) inputs) s.
Proof.
  simpl. induction inputs as [|i inputs IH] using rev_ind.
  - apply mount_walled.
  - rewrite run_snoc, viewport_snoc.
    pose proof (run_wf solve p W H initPos inputs) as Hwf.
    destruct i; simpl.
    + by eapply animate_walled.
    + by eapply handleResize_walled.
    + exact IH.
    + exact IH.
    + exact IH.
Qed.

(** Every particle keeps what [createParticles] gave it: mass 1, one sphere
    of the radius the state had at mount, damping 0.3 and 0.5, and the
    particle material (id 1, friction 0.05, restitution 0.3). *)
Theorem particles_keep_their_make solve (p : Params T) W H initPos inputs :
  let s := run solve inputs (mount W H initPos (fresh p)) in
  Forall (fun r => exists b,
            heap s !! r = Some b
            /\ mass b = ofZ 1
            /\ shapes b = [Sphere (particleRadius p)]
            /\ linearDamping b = dec 3 10 /\ angularDamping b = dec 5 10
            /\ material b = Some (mkMaterial 1 "particleMaterial" (dec 5 100) (dec 3 10)))
         (bodiesRef s).
Proof.
  simpl. destruct (run_wf solve p W H initPos inputs) as [_ _ _ Hp _ _].
  eapply Forall_impl; [exact Hp|]. simpl. intros r (b & Hb & Hi).
  exists b. split; [done|].
  unfold identity, particleBody in Hi. simpl in Hi.
  injection Hi as H1 H2 H3 H4 H5 H6. by repeat split.
Qed.

(** The removal loop of [handleResize], which walks the live array of the
    world backwards while removing from it, keeps the particles in order
    and drops every other body, for any world and any particle array; rules
    and gravity stay, and a second pass removes nothing. *)
Theorem removal_loop_on_any_world (particleBodies : list nat) w :
  let w' := removeLoop particleBodies (length (bodies w)) w in
  bodies w' = filter (fun r => r ∈ particleBodies) (bodies w)
  /\ contactmaterials w' = contactmaterials w
  /\ gravity w' = gravity w
  /\ removeLoop particleBodies (length (bodies w')) w' = w'.
Proof.
  simpl. rewrite removeLoop_filter.
  split; [done|]. split; [done|]. split; [done|].
  rewrite (removeLoop_filter particleBodies (set_bodies _ w)).
  unfold set_bodies. simpl. f_equal.
  apply filter_all, Forall_forall. intros r Hr.
  by apply list_elem_of_filter in Hr as [Hr _].
Qed.

(** The effect places particle [i] at the position drawn for it, at rest and
    without force, with its mesh at the same place; it leaves [n] meshes in
    the scene, [n + 4] bodies in the store, three materials made (that of
    the world, of the particles and of the walls), no timestamp and the
    parameters of the first render. *)
Theorem mount_places_particles (p : Params T) W H initPos i :
  let s := mount W H initPos (fresh p) in
  i < numParticles p ->
  bodiesRef s !! i = Some i
  /\ (exists b, heap s !! i = Some b
        /\ position b = mkVec3 (fst (initPos i)) (snd (initPos i)) (ofZ 0)
        /\ velocity b = vzero /\ force b = vzero /\ torque b = vzero)
  /\ particlesRef s !! i
     = Some (mkMesh (mkVec3 (fst (initPos i)) (snd (initPos i)) (ofZ 0)) (ofZ 0))
  /\ sceneRef s = Some (numParticles p)
  /\ length (heap s) = numParticles p + 4
  /\ nextMaterialId s = 3
  /\ prevTimeRef s = ofZ 0
  /\ state s = p /\ closure s = p.
Proof.
  intros s Hi. unfold s. rewrite mount_fresh.
  erewrite createBoundaries_spec; [|simpl; reflexivity|].
  2:{ simpl. rewrite length_fmap, length_seq. apply Forall_forall.
      intros r Hr. apply elem_of_seq in Hr. lia. }
  simpl. split; [by apply lookup_seq_lt|]. split.
  { eexists. split.
    - rewrite lookup_app_l by (rewrite length_fmap, length_seq; lia).
      rewrite list_lookup_fmap, lookup_seq_lt by lia. reflexivity.
    - done. }
  split.
  { rewrite list_lookup_fmap, lookup_seq_lt by lia. done. }
  split; [by rewrite Nat.add_0_r|]. split; [|done].
  rewrite length_app, length_fmap, length_seq. done.
Qed.

(** After every frame each mesh shows the planar position and the rotation
    that its body has at the end of the frame. *)
Theorem frame_syncs_meshes solve (p : Params T) W H initPos inputs (time : T) :
  let s := animate solve time (run solve inputs (mount W H initPos (fresh p))) in
  particlesRef s = meshOf <$> derefAll (heap s) (bodiesRef s)
  /\ length (particlesRef s) = numParticles p.
Proof.
  intros s.
  pose proof (run_wf solve p W H initPos inputs) as Hwf0.
  pose proof (animate_wf solve p time _ Hwf0) as Hwf. fold s in Hwf.
  destruct Hwf as [_ _ _ Hp Hb Hm]. split; [|done].
  assert (Hvalid : Forall (fun r => is_Some (heap s !! r)) (bodiesRef s)).
  { eapply Forall_impl; [exact Hp|]. simpl. intros r (b & -> & _). eauto. }
  destruct Hwf0 as [_ (w & Hw & _) _ _ _ Hm0].
  apply list_eq. intros i.
  rewrite list_lookup_fmap, (derefAll_lookup _ _ Hvalid).
  revert Hvalid Hb Hm. unfold s, animate. rewrite Hw. simpl.
  set (h4 := applyForces _ _ _ _ _). set (s0 := run solve inputs _) in *.
  intros Hvalid Hb Hm. rewrite list_lookup_imap.
  destruct (bodiesRef s0 !! i) as [r|] eqn:Hr; simpl.
  - destruct (lookup_lt_is_Some_2 (particlesRef s0) i) as [mesh ->].
    { apply lookup_lt_Some in Hr. lia. }
    simpl. rewrite Forall_forall in Hvalid.
    destruct (Hvalid r) as [b Hb']; [by eapply list_elem_of_lookup_2|].
    by rewrite Hb'.
  - apply lookup_ge_None in Hr. rewrite lookup_ge_None_2 by lia. done.
Qed.

Lemma registered_closed p s :
  wf p s ->
  registered s
  = if Nat.eqb (numParticles p) 0 then [] else [boundaryRuleAt (nextMaterialId s)].
Proof.
  intros [_ _ _ Hp Hb _]. unfold registered.
  destruct (bodiesRef s) as [|r0 rest].
  - simpl in Hb. by rewrite <- Hb.
  - simpl in Hb. rewrite <- Hb. simpl.
    apply Forall_cons in Hp as [(b & Hb0 & Hi) _]. rewrite Hb0. simpl.
    assert (material b = Some particleMaterial1) as -> by (by inversion Hi).
    done.
Qed.

(** The contact materials of the world in closed form: the particle-particle
    rule first, then one particle-boundary rule per boundary build, each
    with a boundary material of its own (ids 2, 3, ...; the default material
    of the world has id 0 and the particle material id 1). *)
Theorem contact_table solve (p : Params T) W H initPos inputs :
  let s := run solve inputs (mount W H initPos (fresh p)) in
  exists w,
    worldRef s = Some w
    /\ nextMaterialId s = 3 + resizes inputs
    /\ contactmaterials w
       = particleRule
         :: (if Nat.eqb (numParticles p) 0 then []
             else boundaryRuleAt <$> seq 2 (S (resizes inputs))).
Proof.
  simpl. induction inputs as [|i inputs IH] using rev_ind.
  - rewrite mount_fresh.
    erewrite createBoundaries_spec; [|simpl; reflexivity|].
    2:{ simpl. rewrite length_fmap, length_seq. apply Forall_forall.
        intros r Hr. apply elem_of_seq in Hr. lia. }
    simpl. eexists. split; [done|]. split; [done|].
    unfold registered. simpl. by destruct (numParticles p).
  - rewrite run_snoc, isResize_count.
    pose proof (run_wf solve p W H initPos inputs) as Hwf.
    set (s := run solve inputs (mount W H initPos (fresh p))) in *.
    destruct IH as (w & Hw & Hid & Hc).
    destruct i; simpl; try (exists w; split; [done|done]).
    + exists w. unfold animate. rewrite Hw. simpl. done.
    + rewrite (handleResize_spec p _ _ s w) by done. simpl.
      eexists. split; [done|]. split; [lia|].
      rewrite Hc, (registered_closed p) by done.
      destruct (Nat.eqb (numParticles p) 0); simpl; [done|].
      rewrite Hid. do 2 f_equal.
      change (boundaryRuleAt 3 :: _)
        with (boundaryRuleAt (T:=T) <$> seq 3 (S (resizes inputs))).
      by rewrite seq_S, fmap_app.
Qed.

End Further.

(** ** In real arithmetic *)

Section FurtherReal.

Local Open Scope R_scope.
Implicit Types (h : Heap R).

Lemma sumOver_alter_notin g (f : Body R -> Body R) a h (rs : list nat) :
  a ∉ rs -> sumOver g (alter f a h) rs = sumOver g h rs.
Proof.
  induction rs as [|r rs IH]; intros Ha; simpl; [done|].
  apply not_elem_of_cons in Ha as [Hne Ha].
  by rewrite IH, list_lookup_alter_ne.
Qed.

Lemma sumOver_alter g (f : Body R -> Body R) a A h (rs : list nat) :
  NoDup rs -> a ∈ rs -> h !! a = Some A ->
  sumOver g (alter f a h) rs = sumOver g h rs + (g (f A) - g A).
Proof.
  induction rs as [|r rs IH]; intros Hnd Ha HA; [by apply elem_of_nil in Ha|].
  apply NoDup_cons in Hnd as [Hr Hnd]. simpl.
  destruct (decide (r = a)) as [->|Hne].
  - rewrite sumOver_alter_notin by done.
    rewrite list_lookup_alter_eq, HA. simpl. lra.
  - apply elem_of_cons in Ha as [?|Ha]; [congruence|].
    rewrite IH, list_lookup_alter_ne by done. lra.
Qed.

Lemma sumOver_applyForce (g : Body R -> R) r f rp A h (rs : list nat) :
  NoDup rs -> r ∈ rs -> h !! r = Some A -> btype A = DYNAMIC ->
  sumOver g (applyForce r f rp h) rs
  = sumOver g h rs
    + (g (set_force (vadd (force A) f) (vadd (torque A) (cross rp f)) A) - g A).
Proof.
  intros Hnd Hr HA Hd. rewrite applyForce_alter.
  rewrite (sumOver_alter _ _ r A) by done. by rewrite Hd.
Qed.

Lemma allDynamic_still h h' (rs : list nat) :
  still h h' -> allDynamic h rs -> allDynamic h' rs.
Proof.
  intros [_ Hs] Hall. eapply Forall_impl; [exact Hall|]. simpl.
  intros r (b & Hb & Hd). destruct (Hs r b Hb) as (b' & Hb' & Hi & _).
  exists b'. split; [done|]. unfold identity in Hi. congruence.
Qed.

Lemma pairStep_cancels p a b h (rs : list nat) :
  NoDup rs -> a ∈ rs -> b ∈ rs -> a <> b -> allDynamic h rs ->
  sumOver forceX (pairStep p a b h) rs = sumOver forceX h rs
  /\ sumOver forceY (pairStep p a b h) rs = sumOver forceY h rs.
Proof.
  intros Hnd Ha Hb Hab Hall. unfold allDynamic in Hall. rewrite Forall_forall in Hall.
  destruct (Hall a Ha) as (A & HA & HdA). destruct (Hall b Hb) as (B & HB & HdB).
  unfold pairStep. rewrite HA, HB. destruct (pairForce p A B) as [f|]; [|done].
  assert (HB' : applyForce a f (position A) h !! b = Some B)
    by by rewrite applyForce_lookup_ne.
  split.
  - rewrite (sumOver_applyForce forceX b _ _ B) by done.
    rewrite (sumOver_applyForce forceX a _ _ A) by done.
    unfold forceX. simpl. lra.
  - rewrite (sumOver_applyForce forceY b _ _ B) by done.
    rewrite (sumOver_applyForce forceY a _ _ A) by done.
    unfold forceY. simpl. lra.
Qed.

Lemma pairsOf_distinct (l : list nat) a b :
  NoDup l -> (a, b) ∈ pairsOf l -> a <> b /\ a ∈ l /\ b ∈ l.
Proof.
  intros Hnd (i & j & Hlt & Hi & Hj)%elem_of_pairsOf.
  split; [|split; by eapply list_elem_of_lookup_2].
  intros ->. pose proof (NoDup_lookup l i j b Hnd Hi Hj). lia.
Qed.

(** The attraction adds no net force: on distinct dynamic bodies the sum of
    the forces after [applyForces] is the sum after the pointer pushes
    alone. *)
Theorem attraction_has_no_net_force p mx my (bodies : list nat) h :
  NoDup bodies -> allDynamic h bodies ->
  let pushed := foldl (pushBody p mx my) h bodies in
  sumOver forceX (applyForces p mx my bodies h) bodies = sumOver forceX pushed bodies
  /\ sumOver forceY (applyForces p mx my bodies h) bodies = sumOver forceY pushed bodies.
Proof.
  intros Hnd Hall pushed. unfold applyForces. fold pushed. rewrite outerLoop_pairs.
  assert (Hdyn : allDynamic pushed bodies).
  { eapply allDynamic_still; [|exact Hall].
    apply still_foldl. intros. apply still_pushBody. }
  assert (Hps : Forall (fun ab => fst ab <> snd ab /\ fst ab ∈ bodies /\ snd ab ∈ bodies)
                       (pairsOf bodies)).
  { apply Forall_forall. intros [a b] Hab. by apply pairsOf_distinct. }
  revert Hps Hdyn. generalize (pairsOf bodies) pushed. clear pushed Hall h.
  induction l as [|[a b] ps IH]; intros h Hps Hdyn; simpl; [done|].
  apply Forall_cons in Hps as [(Hab & Ha & Hb) Hps]. simpl in *.
  destruct (pairStep_cancels p a b h bodies) as [Ex Ey]; try done.
  rewrite <- Ex, <- Ey. apply IH; [done|].
  eapply allDynamic_still; [apply still_pairStep | done].
Qed.

Lemma dist_sym (a b : Vec3 R) : dist b a = dist a b.
Proof. unfold dist. simpl. f_equal. ring. Qed.

(** The pair force does not depend on which body comes first in the array:
    computed for (B, A) it is what (A, B) gives to B. *)
Theorem pair_force_is_antisymmetric (p : Params R) (A B : Body R) :
  pairForce p B A = reaction <$> pairForce p A B.
Proof.
  unfold pairForce. simpl.
  change (sqrt ((vx (position A) - vx (position B)) * _ + _))
    with (dist (position B) (position A)).
  change (sqrt ((vx (position B) - vx (position A)) * _ + _))
    with (dist (position A) (position B)).
  rewrite (dist_sym (position A) (position B)).
  destruct (R_lt _ _ || R_lt _ _); [done|]. simpl. unfold reaction. simpl.
  f_equal. f_equal; unfold Rdiv; ring.
Qed.

Lemma pairForce_in_range (p : Params R) (A B : Body R) :
  let d := dist (position A) (position B) in
  2 * particleRadius p <= d <= attractionRadius p ->
  pairForce p A B
    = Some (vscale (attractionStrength p / (d * d)) (unitTo (position A) (position B))).
Proof.
  intros d [Hlo Hhi]. unfold pairForce. simpl. change (sqrt _) with d.
  assert (R_lt d (particleRadius p * 2) = false) as -> by (apply R_lt_false; lra).
  assert (R_lt (attractionRadius p) d = false) as -> by (apply R_lt_false; lra).
  simpl. unfold vscale, unitTo. cbn [vx vy vz]. fold d. f_equal. f_equal; ring.
Qed.

(** Both forces are bounded: the attraction by
    [attractionStrength / (2 radius)^2], the pointer push by
    [(pushRadius - 1) / pushRadius * pushStrength], hence by [pushStrength]. *)
Theorem forces_are_bounded (p : Params R) (mx my : R) (A B : Body R) :
  0 < particleRadius p -> 0 <= attractionStrength p ->
  1 < pushRadius p -> 0 <= pushStrength p ->
  (forall f, pairForce p A B = Some f ->
     norm f <= attractionStrength p / (2 * particleRadius p * (2 * particleRadius p)))
  /\ (forall f, pushForce p mx my A = Some f ->
        norm f <= (pushRadius p - 1) / pushRadius p * pushStrength p
        /\ norm f <= pushStrength p).
Proof.
  intros Hr Hs HR HS. split.
  - intros f Hf. set (d := dist (position A) (position B)).
    assert (Hrange : 2 * particleRadius p <= d <= attractionRadius p).
    { revert Hf. unfold pairForce. simpl. change (sqrt _) with d.
      destruct (R_lt d (particleRadius p * 2)) eqn:E1; [done|].
      destruct (R_lt (attractionRadius p) d) eqn:E2; [done|].
      apply R_lt_false in E1, E2. intros _. lra. }
    rewrite (pairForce_in_range p A B Hrange) in Hf. injection Hf as <-. fold d.
    assert (Hd : 0 < d) by lra.
    assert (Hdd : 0 < d * d) by (apply Rmult_lt_0_compat; lra).
    assert (Hk : 0 <= attractionStrength p / (d * d)).
    { apply Rmult_le_pos; [done|]. left. by apply Rinv_0_lt_compat. }
    assert (Hle : attractionStrength p / (d * d)
                  <= attractionStrength p / (2 * particleRadius p * (2 * particleRadius p))).
    { apply Rmult_le_compat_l; [done|]. apply Rinv_le_contravar.
      - apply Rmult_lt_0_compat; lra.
      - apply Rmult_le_compat; lra. }
    by rewrite norm_vscale_unitTo.
  - intros f Hf. set (d := dist (pointer mx my) (position A)).
    assert (Hrange : 1 < d < pushRadius p).
    { revert Hf. unfold pushForce. simpl. change (sqrt _) with d.
      destruct (R_lt d (pushRadius p)) eqn:E1; [|done].
      destruct (R_lt 1 d) eqn:E2; [|done].
      apply R_lt_true in E1, E2. intros _. lra. }
    rewrite (pushForce_in_range p mx my A Hrange) in Hf. injection Hf as <-. fold d.
    assert (Hd : 0 < d) by lra.
    assert (Hk : 0 <= (pushRadius p - d) / pushRadius p * pushStrength p)
      by by apply pushScale_pos.
    assert (Hinv : 0 < / pushRadius p) by (apply Rinv_0_lt_compat; lra).
    assert (H1 : (pushRadius p - d) / pushRadius p <= (pushRadius p - 1) / pushRadius p).
    { apply Rmult_le_compat_r; [by left | lra]. }
    assert (H2 : (pushRadius p - 1) / pushRadius p <= 1).
    { apply (Rmult_le_reg_r (pushRadius p)); [lra|]. unfold Rdiv.
      rewrite Rmult_assoc, Rinv_l by lra. lra. }
    rewrite norm_vscale_unitTo by done.
    split.
    + apply Rmult_le_compat_r; [lra | exact H1].
    + transitivity (1 * pushStrength p); [|lra].
      apply Rmult_le_compat_r; [lra | exact (Rle_trans _ _ _ H1 H2)].
Qed.

(** [handleMouseMove] maps a pointer inside the canvas into the rectangle
    that the walls of the same window size enclose, the centre of the canvas
    to the origin, and a move of the pointer to the same move with the
    vertical direction reversed; it touches nothing but the pointer. *)
Theorem pointer_lands_in_the_enclosure (cx cy l t W H : R) (s : Sim R) :
  let s' := handleMouseMove cx cy l t W H s in
  let x := fst (mousePositionRef s') in
  let y := snd (mousePositionRef s') in
  (0 <= cx - l <= W -> - (W / 2) <= x <= W / 2)
  /\ (0 <= cy - t <= H -> - (H / 2) <= y <= H / 2)
  /\ (cx - l = W / 2 -> cy - t = H / 2 -> x = 0 /\ y = 0)
  /\ (forall cx' cy', mousePositionRef (handleMouseMove cx' cy' l t W H s')
                      = (x + (cx' - cx), y - (cy' - cy)))
  /\ heap s' = heap s /\ worldRef s' = worldRef s /\ particlesRef s' = particlesRef s.
Proof.
  simpl. repeat split; try lra.
  intros cx' cy'. f_equal; lra.
Qed.

(** The camera always shows 1000 units of height, centred, and the viewport
    scaled by [1000 / height] in both directions. *)
Theorem camera_keeps_the_aspect (W H : R) :
  H <> 0 ->
  let c := cameraFor W H in
  cam_top c = 500 /\ cam_bottom c = -500
  /\ cam_left c = - cam_right c
  /\ cam_right c - cam_left c = (cam_top c - cam_bottom c) * (W / H)
  /\ cam_right c = W / 2 * (1000 / H) /\ cam_top c = H / 2 * (1000 / H).
Proof.
  intros HH. unfold cameraFor, frustumSize. simpl.
  repeat split; try lra; field; done.
Qed.

(** The step is clamped from above only: an elapsed time of at most 0.1 s is
    passed as it is, a timestamp that runs backwards gives a negative step. *)
Theorem delta_time_passes_small_steps (prev time : R) :
  prev <> 0 -> (time - prev) / 1000 <= 0.1 ->
  deltaTime prev time = (time - prev) / 1000
  /\ (time < prev -> deltaTime prev time < 0).
Proof.
  intros Hp Hle. rewrite deltaTime_history by done.
  rewrite Rmin_left by lra. split; [done|]. intros Hlt. lra.
Qed.

(** A frame with timestamp 0 leaves no history: the frame after it steps by
    0.016 whatever time has elapsed. *)
Theorem zero_timestamp_forgets_history solve (p : Params R) (W H : R) initPos inputs (time : R) :
  let s := run solve inputs (mount W H initPos (fresh p)) in
  let s1 := animate solve 0 s in
  prevTimeRef s1 = 0 /\ deltaTime (prevTimeRef s1) time = 0.016.
Proof.
  simpl. destruct (run_wf solve p W H initPos inputs) as [_ (w & Hw & _) _ _ _ _].
  assert (E : prevTimeRef (animate solve 0 (run solve inputs (mount W H initPos (fresh p)))) = 0).
  { unfold animate. by rewrite Hw. }
  rewrite E. split; [done|]. rewrite deltaTime_first. lra.
Qed.

(** After a resize the walls leave the inside of the viewport free, cover
    its whole border, and leave the regions beyond its corners open. *)
Theorem walls_border_the_viewport solve (p : Params R) (W0 H0 : R) initPos inputs (W H x y : R) :
  0 <= W -> 0 <= H ->
  let s := handleResize W H (run solve inputs (mount W0 H0 initPos (fresh p))) in
  (- (W / 2) < x < W / 2 -> - (H / 2) < y < H / 2 ->
     Forall (fun b => ~ inWall b x y) (boundaries s))
  /\ ((- (W / 2) <= x <= W / 2 /\ (y = H / 2 \/ y = - (H / 2)))
      \/ ((x = W / 2 \/ x = - (W / 2)) /\ - (H / 2) <= y <= H / 2) ->
     Exists (fun b => inWall b x y) (boundaries s))
  /\ ((x < - (W / 2) \/ W / 2 < x) -> (y < - (H / 2) \/ H / 2 < y) ->
     Forall (fun b => ~ inWall b x y) (boundaries s)).
Proof.
  intros HW HH s. unfold s.
  rewrite (boundaries_handleResize p) by apply run_wf.
  unfold boundaryWalls, wallBody, boundaryThickness, inWall. simpl.
  split; [|split].
  - intros Hx Hy.
    repeat (apply Forall_cons_2; [simpl; intros ?; lra|]). apply Forall_nil_2.
  - intros [[Hx [Hy|Hy]] | [[Hx|Hx] Hy]].
    + apply Exists_cons_hd. simpl. lra.
    + apply Exists_cons_tl, Exists_cons_hd. simpl. lra.
    + do 3 apply Exists_cons_tl. apply Exists_cons_hd. simpl. lra.
    + do 2 apply Exists_cons_tl. apply Exists_cons_hd. simpl. lra.
  - intros Hx Hy.
    repeat (apply Forall_cons_2; [simpl; intros ?; lra|]). apply Forall_nil_2.
Qed.

End FurtherReal.

(** ** Instances of the further properties *)

Section FurtherRealWitnesses.

Local Open Scope R_scope.

(** Two default particles 100 apart, the pointer 30 from the first: the
    pushes of the pointer are the whole net force. *)
Lemma no_net_force_witness :
  let h := [realParticle 0; realParticle 100] in
  NoDup [0; 1]%nat /\ allDynamic h [0; 1]%nat
  /\ sumOver forceX (applyForces defaults (-30) 0 [0; 1]%nat h) [0; 1]%nat
     = sumOver forceX (foldl (pushBody defaults (-30) 0) h [0; 1]%nat) [0; 1]%nat.
Proof.
  intros h.
  assert (Hnd : NoDup [0; 1]%nat) by apply (NoDup_seq 0 2).
  assert (Hall : allDynamic h [0; 1]%nat).
  { apply Forall_cons_2; [by eexists|]. apply Forall_cons_2; [by eexists|]. apply Forall_nil_2. }
  destruct (attraction_has_no_net_force defaults (-30) 0 [0; 1]%nat h Hnd Hall) as [Hx _].
  by repeat split.
Defined.

(** Default parameters: no pair force exceeds 25000 / 196, no push 30000. *)
Lemma forces_bounded_witness :
  (forall f, pairForce defaults (realParticle 0) (realParticle 100) = Some f ->
     norm f <= 25000 / (2 * 7 * (2 * 7)))
  /\ (forall f, pushForce defaults 0 0 (realParticle 40) = Some f -> norm f <= 30000).
Proof.
  destruct (forces_are_bounded defaults 0 0 (realParticle 0) (realParticle 100))
    as [Hpair _]; [simpl; lra | simpl; lra | simpl; lra | simpl; lra |].
  destruct (forces_are_bounded defaults 0 0 (realParticle 40) (realParticle 40))
    as [_ Hpush]; [simpl; lra | simpl; lra | simpl; lra | simpl; lra |].
  split.
  - exact Hpair.
  - intros f Hf. by destruct (Hpush f Hf).
Defined.

(** The pointer in the middle of an 800 x 600 canvas at (10, 20). *)
Lemma pointer_witness :
  mousePositionRef (handleMouseMove 410 320 10 20 800 600 (fresh defaults)) = (0, 0)
  /\ mousePositionRef (handleMouseMove 420 330 10 20 800 600
                         (handleMouseMove 410 320 10 20 800 600 (fresh defaults)))
     = (0 + (420 - 410), 0 - (330 - 320)).
Proof.
  destruct (pointer_lands_in_the_enclosure 410 320 10 20 800 600 (fresh defaults))
    as (_ & _ & Hmid & Hmove & _).
  destruct Hmid as [Hx Hy]; [lra | lra |].
  split.
  - by apply injective_projections.
  - rewrite (Hmove 420 330). by rewrite Hx, Hy.
Defined.

(** An 800 x 600 window. *)
Lemma camera_witness :
  600 <> 0
  /\ cam_right (cameraFor 800 600) - cam_left (cameraFor 800 600) = 1000 * (800 / 600).
Proof.
  assert (H : 600 <> 0) by lra.
  destruct (camera_keeps_the_aspect 800 600 H) as (Ht & Hb & _ & Hw & _).
  split; [done|]. rewrite Hw, Ht, Hb. lra.
Defined.

(** A frame 16 ms after the last one, and one stamped 100 ms before it. *)
Lemma small_steps_witness :
  deltaTime 1000 1016 = 0.016 /\ deltaTime 1000 900 < 0.
Proof.
  destruct (delta_time_passes_small_steps 1000 1016) as [H1 _]; [lra | lra |].
  destruct (delta_time_passes_small_steps 1000 900) as [_ H2]; [lra | lra |].
  split; [rewrite H1; lra | apply H2; lra].
Defined.

(** The centre of a 1200 x 800 window lies in no wall. *)
Lemma walls_border_witness :
  Forall (fun b => ~ inWall b 0 0)
    (boundaries (handleResize 1200 800 (mount 800 600 (fun _ => (0, 0)) (fresh defaults)))).
Proof.
  destruct (walls_border_the_viewport (fun _ _ _ => []) defaults 800 600 (fun _ => (0, 0)) []
              1200 800 0 0) as (Hin & _ & _); [lra | lra |].
  apply Hin; lra.
Defined.

End FurtherRealWitnesses.

Section FurtherWitnesses.

Local Open Scope float_scope.

(** The first wall of [scenario1] is not in the array of particles. *)
Lemma outside_array_witness :
  (2%nat ∉ bodiesRef scenario1)
  /\ applyForces twoParticles 0 0 (bodiesRef scenario1) (heap scenario1) !! 2%nat
     = heap scenario1 !! 2%nat.
Proof.
  assert (H : 2%nat ∉ bodiesRef scenario1).
  { change (bodiesRef scenario1) with [0; 1]%nat.
    rewrite !not_elem_of_cons. repeat split; [lia | lia | apply not_elem_of_nil]. }
  split; [done|]. by apply applyForces_outside_array.
Defined.

(** The second of two particles, after a frame in [scenario1]. *)
Lemma sync_witness :
  particlesRef (updateParticlePositions scenario1) !! 1%nat
  = Some (meshOf (particleAt 100)).
Proof.
  destruct (updateParticlePositions_sync scenario1) as (_ & H & _).
  apply (H 1%nat 1%nat); [reflexivity | reflexivity | simpl; lia].
Defined.

(** The second of two particles, drawn at (100, 0). *)
Lemma mount_places_witness :
  (1 < numParticles twoParticles)%nat
  /\ particlesRef (mount 800 600 (twoAt 100) (fresh twoParticles)) !! 1%nat
     = Some (mkMesh (mkVec3 100 0 0) 0).
Proof.
  assert (H : (1 < numParticles twoParticles)%nat) by (simpl; lia).
  destruct (mount_places_particles twoParticles 800 600 (twoAt 100) 1%nat H)
    as (_ & _ & Hm & _).
  split; [done | exact Hm].
Defined.

End FurtherWitnesses.
